(** * MusicFreePluginsHub: the plugin aggregation pipeline of [src/main.py]

    A shallow embedding of the functions of [main.py] and the properties of
    its specification.

    Modelling conventions.
    - A Python [str] is a sequence of Unicode code points, here [list N]:
      slicing ([cleaned[:50]]) and the character classes of [re] count code
      points, not bytes.
    - A plugin descriptor is a JSON object.  The program reads the key
      [url] (present in every descriptor of the data model) and the key
      [name] (read with a default, hence optional; a string when present);
      every other key is carried along untouched.
    - The network is an oracle that tells, for a URL and an attempt number,
      whether the request succeeds and with which body.  The disk is an
      oracle that tells, for the URL of a task and an attempt number,
      whether [write_text] of the payload returns or raises.
    - The tasks started by [asyncio.gather] run on one thread; a task gives
      up control only at an [await]: the request of an attempt, and the
      sleep after a failed one.  What a task does between two of them is
      not interrupted.  The order in which the attempts of the tasks
      complete is given by a completion time per task and attempt.
    - The payload writes that return are recorded, in their order; a write
      that raises leaves no record (what it leaves on the disk is not
      modelled).  The log lines of the download tasks are not recorded; the
      log lines of the sequential code are. *)

From Stdlib Require Import NArith Ascii String DecimalString.
From Stdlib Require DecimalNat.
From stdpp Require Import base gmap sets list sorting.

Local Open Scope N_scope.
Local Open Scope nat_scope.

(** ** Python strings *)

Abbreviation str := (list N).

(** An ASCII literal as a Python string. *)
Definition lit (s : string) : str := N_of_ascii <$> list_ascii_of_string s.

Module Py.

(** [s.startswith(old)] *)
Fixpoint startswith (old s : str) : bool :=
  match old, s with
  | [], _ => true
  | _ :: _, [] => false
  | a :: old', b :: s' => (a =? b)%N && startswith old' s'
  end.

(** [s.replace(old, new)] for a non-empty [old] (every call of the program
    passes a non-empty constant): the occurrences of [old] are replaced
    from left to right, without overlap.  [skip] counts the characters of
    an occurrence that are still to be passed over. *)
Fixpoint replace_from (old new : str) (skip : nat) (s : str) : str :=
  match s with
  | [] => []
  | c :: s' =>
      match skip with
      | S k => replace_from old new k s'
      | O =>
          if startswith old s
          then new ++ replace_from old new (length old - 1) s'
          else c :: replace_from old new 0 s'
      end
  end.

Definition replace (old new s : str) : str := replace_from old new 0 s.

(** [s.rstrip(chars)] for a one-character [chars]. *)
Fixpoint rstrip (c : N) (s : str) : str :=
  match s with
  | [] => []
  | x :: s' =>
      match rstrip c s' with
      | [] => if (x =? c)%N then [] else [x]
      | r => x :: r
      end
  end.

(** [str(n)] for a non-negative integer: its decimal digits. *)
Definition str_of_nat (n : nat) : str :=
  lit (NilEmpty.string_of_uint (Nat.to_uint n)).

(** [Py_UNICODE_ISSPACE], the class [\s] of [re] on a [str] pattern. *)
Definition isspace (c : N) : bool :=
  ((9 <=? c) && (c <=? 13) || (28 <=? c) && (c <=? 32)
   || (c =? 133) || (c =? 160) || (c =? 5760)
   || (8192 <=? c) && (c <=? 8202)
   || (c =? 8232) || (c =? 8233) || (c =? 8239) || (c =? 8287)
   || (c =? 12288))%N.

(** [str.isalnum] on one character.  Below 128 it is the ASCII letters
    and digits; above, it is read from the Unicode database, which is
    not part of the program: [unicode_alnum] stands for that table. *)
Definition isalnum (unicode_alnum : N → bool) (c : N) : bool :=
  if (c <? 128)%N
  then ((48 <=? c) && (c <=? 57) || (65 <=? c) && (c <=? 90)
        || (97 <=? c) && (c <=? 122))%N
  else unicode_alnum c.

(** The class [\w] of [re] on a [str] pattern: alphanumeric or [_]. *)
Definition isword (unicode_alnum : N → bool) (c : N) : bool :=
  isalnum unicode_alnum c || (c =? 95)%N.

End Py.

(** ** Constants of [main.py] *)

Definition MAX_RETRIES : nat := 3.
Definition VERSION : str := lit "0.2.0".

(** ** [sanitize_filename] *)

Section Sanitize.

Variable unicode_alnum : N → bool.

(** The characters that the class [^\w\u4e00-\u9fff\s] does not match:
    those that [re.sub] keeps. *)
Definition kept (c : N) : bool :=
  Py.isword unicode_alnum c || (19968 <=? c)%N && (c <=? 40959)%N
  || Py.isspace c.

Definition sanitize_filename (name : str) : str :=
  let cleaned := List.filter kept name in
  let cleaned := Py.replace [32%N] [95%N] cleaned in
  match cleaned with
  | [] => lit "plugin"
  | _ :: _ => take 50 cleaned
  end.

End Sanitize.

(** ** Plugin descriptors *)

Record plugin := Plugin {
  url : str;
  name : option str;
  extra : list (str * str)
}.

(** [plugin["name"] = v] and [plugin["url"] = v] on a copy. *)
Definition set_name (v : str) (p : plugin) : plugin :=
  {| url := url p; name := Some v; extra := extra p |}.
Definition set_url (v : str) (p : plugin) : plugin :=
  {| url := v; name := name p; extra := extra p |}.

(** ** Observable effects of a run *)

Inductive level := Info | Warning | Error | Success.

Inductive manifest := DIST_JSON_PATH | PLUGINS_JSON_PATH.

(** The log lines of the sequential part of the program, one constructor
    per call of [logger]. *)
Inductive message :=
  | SubscriptionFailed (source : str) (retry : nat)
  | OriginsUnreadable
  | ManifestSaved (path : manifest)
  | ManifestNotSaved (path : manifest)
  | FetchingSources (n : nat)
  | SourceGave (source : str) (n : nat)
  | AddingSingles (n : nat)
  | Starting
  | CdnSetting (enabled : bool)
  | CdnAddress (base : str)
  | JsDirDeleted
  | JsDirCreated
  | JsDirResetFailed
  | NoPlugins
  | Downloading (n : nat)
  | NoValidPlugins
  | Verified (n : nat)
  | OriginalCollected (n : nat)
  | Done (n : nat).

Inductive event :=
  | Log (lvl : level) (msg : message)
  | RmTreeJsDir
  | MkDirJsDir
  | WriteJs (filename text : str)
  | WriteManifest (path : manifest) (desc : str) (plugins : list plugin).

(** ** [fetch_sub_plugins] *)

(** What one request to a subscription source gives: an exception (network
    error, error status, a body that is not a JSON object), or a JSON object
    with or without the key [plugins]. *)
Inductive sub_response :=
  | SubRaises
  | SubJson (plugins : option (list plugin)).

Section Subscriptions.

Variable sub_net : str → nat → sub_response.

(** The loop [for retry in range(MAX_RETRIES)], with the log lines it
    emits.  The last iteration always returns, so that the end of the
    range is never reached. *)
Fixpoint fetch_sub_loop (source : str) (retries : list nat)
  : list plugin * list event :=
  match retries with
  | [] => ([], [])
  | retry :: rest =>
      match sub_net source retry with
      | SubJson data => (default [] data, [])
      | SubRaises =>
          if retry =? MAX_RETRIES - 1
          then ([], [Log Error (SubscriptionFailed source (retry + 1))])
          else
            let '(plugins, log) := fetch_sub_loop source rest in
            (plugins, Log Warning (SubscriptionFailed source (retry + 1)) :: log)
      end
  end.

Definition fetch_sub_plugins (source : str) : list plugin * list event :=
  fetch_sub_loop source (seq 0 MAX_RETRIES).

End Subscriptions.

(** ** [fetch_plugins] *)

(** What a task returns: [(success, new_plugin, original_plugin)]. *)
Abbreviation result := (bool * plugin * plugin)%type.

(** A task of [asyncio.gather]: it has returned, or it is suspended at the
    [await] of the request of its attempt [retry] (for [retry > 0], after
    the sleep that follows the failed attempt before it). *)
Inductive task :=
  | Finished (r : result)
  | Suspended (plugin : plugin) (retry : nat).

(** The state that the tasks share (the closure variable [name_count] and
    the payloads written under [JS_DIR], in the order of the writes), and
    the tasks themselves, in the order of the input. *)
Record fetch_state := FetchState {
  name_count : gmap str nat;
  js_writes : list event;
  tasks : list task
}.

Section Fetch.

Variable unicode_alnum : N → bool.
Variable CDN_URL : str.
Variable net : str → nat → option str.

(** Whether [write_text] returns, for the URL and the attempt of the task
    that writes (a URL names one task: the tasks of the other descriptors
    with that URL return before their first request). *)
Variable disk : str → nat → bool.

Definition USE_CDN : bool :=
  match CDN_URL with [] => false | _ :: _ => true end.

(** The start of every task, up to its first [await]: the tasks start in
    the order of the input, and none is resumed before all have started.
    A URL already in [seen_urls] makes the task return at once. *)
Fixpoint start_tasks (seen_urls : gset str) (plugins : list plugin)
  : list task :=
  match plugins with
  | [] => []
  | plugin :: rest =>
      if decide (url plugin ∈ seen_urls)
      then Finished (false, plugin, plugin) :: start_tasks seen_urls rest
      else Suspended plugin 0 :: start_tasks ({[url plugin]} ∪ seen_urls) rest
  end.

(** The body of the [try] after a response that is not an error: it has no
    [await], so it runs without interruption by another task.
    [name_count] is updated first; [write_text] comes after it, and
    [written] tells whether it returns.  When it raises, the [try] is left
    for the [except] branch with [name_count] already updated: [None]. *)
Definition process_response (name_count : gmap str nat) (plugin : plugin)
    (text : str) (written : bool)
  : gmap str nat * option (event * result) :=
  let name := default (url plugin) (name plugin) in
  let name :=
    Py.replace (lit "QQ") (lit "T")
      (Py.replace [32593%N; 26131%N; 20113%N] (lit "W") name) in
  let '(name_count, plugin_name) :=
    match name_count !! name with
    | Some n =>
        (<[name := S n]> name_count, name ++ lit "_" ++ Py.str_of_nat (S n))
    | None => (<[name := 0]> name_count, name)
    end in
  let clean_name := sanitize_filename unicode_alnum plugin_name in
  let filename := clean_name ++ lit ".js" in
  if written
  then
    let new_plugin := set_name plugin_name plugin in
    let new_plugin :=
      if USE_CDN
      then
        let cdn_base := Py.rstrip 47%N CDN_URL ++ lit "/" in
        set_url (cdn_base ++ filename) new_plugin
      else set_url (lit "js/" ++ filename) new_plugin in
    let original_plugin := set_name plugin_name plugin in
    (name_count,
     Some (WriteJs filename text, (true, new_plugin, original_plugin)))
  else (name_count, None).

(** The [except] branch: the task returns at the last attempt, and
    otherwise sleeps and goes to its next attempt. *)
Definition on_exception (plugin : plugin) (retry : nat) : task :=
  if retry =? MAX_RETRIES - 1
  then Finished (false, plugin, plugin)
  else Suspended plugin (retry + 1).

(** [download_and_process_plugin] from its first [await] on (the check of
    [seen_urls] before it is in [start_tasks]): one iteration of the loop
    [for retry in range(MAX_RETRIES)], from the answer to its request to
    the [return], or to the request of the next iteration.  Between the
    [await] of the sleep and the [await] of the next request the task
    does nothing, so that the two are one suspension.  The loop is the
    sequence of these iterations: [on_exception] names the next one, and
    [resume] runs it when its request completes.  The iteration
    [MAX_RETRIES - 1] always returns, so that the end of the range is never
    reached. *)
Definition download_and_process_plugin (name_count : gmap str nat)
    (plugin : plugin) (retry : nat)
  : gmap str nat * list event * task :=
  match net (url plugin) retry with
  | Some text =>
      match
        process_response name_count plugin text (disk (url plugin) retry)
      with
      | (name_count, Some (write, r)) => (name_count, [write], Finished r)
      | (name_count, None) => (name_count, [], on_exception plugin retry)
      end
  | None => (name_count, [], on_exception plugin retry)
  end.

(** The request of task [i] completes: the task runs to its [return] or to
    its next request.  A task that has returned is not resumed. *)
Definition resume (st : fetch_state) (i : nat) : fetch_state :=
  match tasks st !! i with
  | Some (Suspended plugin retry) =>
      let '(nc, written, t) :=
        download_and_process_plugin (name_count st) plugin retry in
      {| name_count := nc;
         js_writes := js_writes st ++ written;
         tasks := <[i := t]> (tasks st) |}
  | _ => st
  end.

Definition run_tasks (order : list nat) (st : fetch_state) : fetch_state :=
  foldl resume st order.

(** [asyncio.gather] gives the results of the tasks in the order of the
    input, once all have returned. *)
Definition gather (ts : list task) : list result :=
  omap (λ t, match t with Finished r => Some r | Suspended _ _ => None end) ts.

(** The loop that separates the successes from the failures. *)
Fixpoint split_results (results : list result)
    (valid_plugins original_plugins : list plugin)
  : list plugin * list plugin :=
  match results with
  | [] => (valid_plugins, original_plugins)
  | (success, new_plugin, original_plugin) :: rest =>
      if success
      then split_results rest (valid_plugins ++ [new_plugin])
             (original_plugins ++ [original_plugin])
      else split_results rest valid_plugins
             (original_plugins ++ [original_plugin])
  end.

(** The run of the tasks when their requests complete in [order]: the
    list names, for each request that completes, the task that made it. *)
Definition fetch_run (order : list nat) (plugins : list plugin)
  : fetch_state :=
  run_tasks order
    {| name_count := ∅; js_writes := []; tasks := start_tasks ∅ plugins |}.

Definition fetch_results (order : list nat) (plugins : list plugin)
  : list result :=
  gather (tasks (fetch_run order plugins)).

Definition fetch_plugins_in (order : list nat) (plugins : list plugin)
  : list plugin * list plugin :=
  split_results (fetch_results order plugins) [] [].

(** The requests that [n] tasks can make: [MAX_RETRIES] each. *)
Definition attempts (n : nat) : list (nat * nat) :=
  retry ← seq 0 MAX_RETRIES; (λ i, (i, retry)) <$> seq 0 n.

(** The order of completion when the request of attempt [retry] of task
    [i] completes at time [finish i retry].  Of a request, the order keeps
    the task: the requests of one task complete one after the other, so
    that the [k]-th time a task is resumed is for its [k]-th request; a
    task that has returned earlier makes no further request, and [resume]
    leaves it as it is. *)
Definition completes_before (finish : nat → nat → nat)
  : relation (nat * nat) :=
  λ a b, finish a.1 a.2 ≤ finish b.1 b.2.

#[global] Instance completes_before_dec finish a b :
  Decision (completes_before finish a b) :=
  Nat.le_dec (finish a.1 a.2) (finish b.1 b.2).

Definition completion_order (finish : nat → nat → nat) (n : nat) : list nat :=
  fst <$> merge_sort (completes_before finish) (attempts n).

Definition fetch_plugins (finish : nat → nat → nat) (plugins : list plugin)
  : list plugin * list plugin :=
  fetch_plugins_in (completion_order finish (length plugins)) plugins.

(** The payloads written under [JS_DIR] by [fetch_plugins]. *)
Definition fetch_writes (finish : nat → nat → nat) (plugins : list plugin)
  : list event :=
  js_writes (fetch_run (completion_order finish (length plugins)) plugins).

End Fetch.

Arguments completion_order : simpl never.

(** ** [load_origins], [collect_plugins], [save_plugin_list] and [main] *)

(** The source configuration: a JSON object read with the keys [sources]
    and [singles], each of which may be absent. *)
Record origins := Origins {
  sources : option (list str);
  singles : option (list plugin)
}.

(** [not origins]: the object has no key. *)
Definition origins_empty (o : origins) : bool :=
  match sources o, singles o with
  | None, None => true
  | _, _ => false
  end.

(** How the reset of [JS_DIR] at the start of [main] goes. *)
Inductive js_dir_reset := ResetDone | RmTreeRaises | MkDirRaises.

(** What a run depends on outside the program.  [origins_file] is [None]
    when opening or parsing [origins.json] raises. *)
Record world := World {
  js_dir_exists : bool;
  reset : js_dir_reset;
  origins_file : option origins;
  sub_net : str → nat → sub_response;
  net : str → nat → option str;
  disk : str → nat → bool;
  finish : nat → nat → nat;
  writable : manifest → bool
}.

Definition load_origins (file : option origins) : origins * list event :=
  match file with
  | Some o => (o, [])
  | None =>
      ({| sources := Some []; singles := Some [] |},
       [Log Error OriginsUnreadable])
  end.

(** A failed write leaves no manifest; what a partial write leaves behind
    is not modelled. *)
Definition save_plugin_list (writable : manifest → bool) (file_path : manifest)
    (desc : str) (plugins : list plugin) : bool * list event :=
  if writable file_path
  then (true, [WriteManifest file_path desc plugins;
               Log Success (ManifestSaved file_path)])
  else (false, [Log Error (ManifestNotSaved file_path)]).

Section Collect.

Variable sub_net : str → nat → sub_response.

(** The loop [for source_url in sources]. *)
Fixpoint collect_sources (sources : list str) (all_plugins : list plugin)
  : list plugin * list event :=
  match sources with
  | [] => (all_plugins, [])
  | source_url :: rest =>
      let '(plugins, log) := fetch_sub_plugins sub_net source_url in
      match plugins with
      | [] =>
          let '(all_plugins, log') := collect_sources rest all_plugins in
          (all_plugins, log ++ log')
      | _ :: _ =>
          let '(all_plugins, log') :=
            collect_sources rest (all_plugins ++ plugins) in
          (all_plugins,
           log ++ Log Info (SourceGave source_url (length plugins)) :: log')
      end
  end.

Definition collect_plugins (origins : origins) : list plugin * list event :=
  let '(all_plugins, log1) :=
    match default [] (sources origins) with
    | [] => ([], [])
    | (_ :: _) as sources =>
        let '(all_plugins, log) := collect_sources sources [] in
        (all_plugins, Log Info (FetchingSources (length sources)) :: log)
    end in
  match default [] (singles origins) with
  | [] => (all_plugins, log1)
  | (_ :: _) as singles =>
      (all_plugins ++ singles,
       log1 ++ [Log Info (AddingSingles (length singles))])
  end.

End Collect.

Section Main.

Variable unicode_alnum : N → bool.
Variable CDN_URL : str.
Variable w : world.

(** Step 1 of [main]: [JS_DIR] is deleted and created again. *)
Definition reset_js_dir : bool * list event :=
  let deleted :=
    if js_dir_exists w then [RmTreeJsDir; Log Info JsDirDeleted] else [] in
  match reset w with
  | RmTreeRaises =>
      if js_dir_exists w
      then (false, [Log Error JsDirResetFailed])
      else (true, [MkDirJsDir; Log Info JsDirCreated])
  | MkDirRaises => (false, deleted ++ [Log Error JsDirResetFailed])
  | ResetDone => (true, deleted ++ [MkDirJsDir; Log Info JsDirCreated])
  end.

(** Steps 3 and 4 of [main], from the collected plugins on. *)
Definition process_and_save (all_plugins : list plugin) : list event :=
  match all_plugins with
  | [] => [Log Warning NoPlugins]
  | _ :: _ =>
      let '(valid_plugins, original_plugins) :=
        fetch_plugins unicode_alnum CDN_URL (net w) (disk w) (finish w)
          all_plugins in
      Log Info (Downloading (length all_plugins))
      :: fetch_writes unicode_alnum CDN_URL (net w) (disk w) (finish w)
           all_plugins
      ++ match valid_plugins with
         | [] => [Log Error NoValidPlugins]
         | _ :: _ =>
             let '(all_success, log1) :=
               save_plugin_list (writable w) DIST_JSON_PATH VERSION
                 valid_plugins in
             let '(plugins_success, log2) :=
               save_plugin_list (writable w) PLUGINS_JSON_PATH VERSION
                 original_plugins in
             [Log Info (Verified (length valid_plugins));
              Log Info (OriginalCollected (length original_plugins))]
             ++ log1 ++ log2
             ++ (if all_success && plugins_success
                 then [Log Success (Done (length valid_plugins))]
                 else [])
         end
  end.

(** [main]: the effects of a run, in order. *)
Definition main : list event :=
  [Log Info Starting; Log Info (CdnSetting (USE_CDN CDN_URL))]
  ++ (if USE_CDN CDN_URL then [Log Info (CdnAddress CDN_URL)] else [])
  ++ let '(ok, log) := reset_js_dir in
     log
     ++ if ok
        then
          let '(origins, log) := load_origins (origins_file w) in
          log
          ++ if origins_empty origins
             then []
             else
               let '(all_plugins, log) :=
                 collect_plugins (sub_net w) origins in
               log ++ process_and_save all_plugins
        else [].

End Main.

(** What a run leaves on disk. *)
Definition writes_manifest (e : event) : bool :=
  match e with WriteManifest _ _ _ => true | _ => false end.
Definition writes_js (e : event) : bool :=
  match e with WriteJs _ _ => true | _ => false end.
Definition is_log (e : event) : bool :=
  match e with Log _ _ => true | _ => false end.
Definition on_disk (e : event) : bool := negb (is_log e).

(** ** Notions used in the statements *)

(** The body of the first attempt, out of [MAX_RETRIES], that gets a
    response. *)
Definition first_response (net : str → nat → option str) (u : str)
  : option str :=
  head (omap (net u) (seq 0 MAX_RETRIES)).

(** Attempt [retry] on [u] gets a response and writes it: the attempt goes
    through the [try], to its [return]. *)
Definition stored (net : str → nat → option str) (disk : str → nat → bool)
    (u : str) (retry : nat) : bool :=
  match net u retry with
  | Some _ => disk u retry
  | None => false
  end.

(** The display name after the two substitutions. *)
Definition display_name (p : plugin) : str :=
  Py.replace (lit "QQ") (lit "T")
    (Py.replace [32593%N; 26131%N; 20113%N] (lit "W")
       (default (url p) (name p))).

(** The value that [name_count[name]] takes when [name] is processed. *)
Definition next_count (nc : gmap str nat) (b : str) : nat :=
  match nc !! b with Some n => S n | None => 0 end.

(** The name [b] with the suffix of the counter value [k]. *)
Definition suffixed (b : str) (k : nat) : str :=
  match k with
  | 0 => b
  | S _ => b ++ lit "_" ++ Py.str_of_nat k
  end.

(** The stored file name and the rewritten URL of a resolved name. *)
Definition filename_of (unicode_alnum : N → bool) (plugin_name : str) : str :=
  sanitize_filename unicode_alnum plugin_name ++ lit ".js".

Definition mirror_url (CDN_URL : str) (filename : str) : str :=
  match CDN_URL with
  | [] => lit "js/" ++ filename
  | _ :: _ => Py.rstrip 47%N CDN_URL ++ lit "/" ++ filename
  end.

(** Descriptor [i] of the input has the URL of an earlier one. *)
Definition duplicate (plugins : list plugin) (i : nat) (p : plugin) : Prop :=
  url p ∈ url <$> take i plugins.

#[global] Instance duplicate_dec plugins i p : Decision (duplicate plugins i p).
Proof. unfold duplicate. apply _. Defined.

(** The display name of descriptor [j] when it is not a duplicate and one
    of its requests gets a response: the tasks that reach the update of
    [name_count]. *)
Definition processed (net : str → nat → option str) (plugins : list plugin)
    (j : nat) : option str :=
  p ← plugins !! j;
  if decide (duplicate plugins j p) then None
  else (λ _, display_name p) <$> first_response net (url p).

(** How many times [order] resumes task [i]. *)
Definition resumed (order : list nat) (i : nat) : nat :=
  length (filter (λ j, j = i) order).

(** [order] resumes each of [n] tasks often enough for all its attempts. *)
Definition complete (order : list nat) (n : nat) : Prop :=
  ∀ i, i < n → MAX_RETRIES ≤ resumed order i.

(** The attempts [retries] of a task that shares its display name with no
    other task that reaches the update of [name_count]: only its own
    attempts count, and [count] is the number of responses that its
    earlier attempts got. *)
Fixpoint alone (unicode_alnum : N → bool) (CDN_URL : str)
    (net : str → nat → option str) (disk : str → nat → bool)
    (p : plugin) (count : nat) (retries : list nat) : result :=
  match retries with
  | [] => (false, p, p)
  | retry :: rest =>
      match net (url p) retry with
      | Some _ =>
          if disk (url p) retry
          then
            let plugin_name := suffixed (display_name p) count in
            (true,
             set_url
               (mirror_url CDN_URL (filename_of unicode_alnum plugin_name))
               (set_name plugin_name p),
             set_name plugin_name p)
          else alone unicode_alnum CDN_URL net disk p (S count) rest
      | None => alone unicode_alnum CDN_URL net disk p count rest
      end
  end.

(** What task [i] returns when no other task that reaches the update of
    [name_count] has its display name. *)
Definition settled (unicode_alnum : N → bool) (CDN_URL : str)
    (net : str → nat → option str) (disk : str → nat → bool)
    (plugins : list plugin) (i : nat) (p : plugin) : result :=
  if decide (duplicate plugins i p) then (false, p, p)
  else alone unicode_alnum CDN_URL net disk p 0 (seq 0 MAX_RETRIES).

(** What the requests to a subscription source give: an exception at every
    attempt, or [data] at the first attempt that does not raise. *)
Definition exhausted (sub_net : str → nat → sub_response) (s : str) : Prop :=
  ∀ retry, retry < MAX_RETRIES → sub_net s retry = SubRaises.

Definition answers (sub_net : str → nat → sub_response) (s : str)
    (data : option (list plugin)) : Prop :=
  ∃ k, k < MAX_RETRIES
       ∧ (∀ j, j < k → sub_net s j = SubRaises)
       ∧ sub_net s k = SubJson data.

(** ** Invariants of the run of the tasks *)

(** What holds of task [i], started for the descriptor [p], while the
    tasks run: a suspended task has seen its earlier attempts fail; a task
    that returned a failure is a duplicate or has seen every attempt fail;
    a task that returned a success has written its payload, under a name
    whose suffix is at most the counter of its display name. *)
Definition slot_ok (unicode_alnum : N → bool) (CDN_URL : str)
    (net : str → nat → option str) (disk : str → nat → bool)
    (plugins : list plugin) (st : fetch_state) (i : nat) (p : plugin)
    (t : task) : Prop :=
  match t with
  | Suspended q k =>
      q = p ∧ ¬ duplicate plugins i p ∧ k < MAX_RETRIES
      ∧ ∀ j, j < k → stored net disk (url p) j = false
  | Finished (false, new_plugin, original_plugin) =>
      new_plugin = p ∧ original_plugin = p
      ∧ (duplicate plugins i p
         ∨ ∀ j, j < MAX_RETRIES → stored net disk (url p) j = false)
  | Finished (true, new_plugin, original_plugin) =>
      ¬ duplicate plugins i p
      ∧ ∃ retry text n c,
          retry < MAX_RETRIES
          ∧ net (url p) retry = Some text ∧ disk (url p) retry = true
          ∧ name_count st !! display_name p = Some c ∧ n ≤ c
          ∧ new_plugin =
              set_url
                (mirror_url CDN_URL
                   (filename_of unicode_alnum (suffixed (display_name p) n)))
                (set_name (suffixed (display_name p) n) p)
          ∧ original_plugin = set_name (suffixed (display_name p) n) p
          ∧ WriteJs (filename_of unicode_alnum (suffixed (display_name p) n))
              text ∈ js_writes st
  end.

Definition tasks_ok (unicode_alnum : N → bool) (CDN_URL : str)
    (net : str → nat → option str) (disk : str → nat → bool)
    (plugins : list plugin) (st : fetch_state) : Prop :=
  ∀ i p, plugins !! i = Some p →
    ∃ t, tasks st !! i = Some t
         ∧ slot_ok unicode_alnum CDN_URL net disk plugins st i p t.

(** Two tasks that returned a success for descriptors with the same
    display name returned different names. *)
Definition names_apart (plugins : list plugin) (st : fetch_state) : Prop :=
  ∀ i j p q new_i original_i new_j original_j,
    i ≠ j →
    plugins !! i = Some p → plugins !! j = Some q →
    display_name p = display_name q →
    tasks st !! i = Some (Finished (true, new_i, original_i)) →
    tasks st !! j = Some (Finished (true, new_j, original_j)) →
    name new_i ≠ name new_j.

(** Every suffix below the counter of a display name is the suffix of a
    task that returned a success under that display name. *)
Definition suffixes_used (plugins : list plugin) (st : fetch_state) : Prop :=
  ∀ b n, n < next_count (name_count st) b →
    ∃ i p new_plugin original_plugin,
      plugins !! i = Some p ∧ display_name p = b
      ∧ tasks st !! i = Some (Finished (true, new_plugin, original_plugin))
      ∧ name new_plugin = Some (suffixed b n).

(** What holds of task [i] when every task is headed for [settled]. *)
Definition slot_settled (unicode_alnum : N → bool) (CDN_URL : str)
    (net : str → nat → option str) (disk : str → nat → bool)
    (plugins : list plugin) (st : fetch_state) (i : nat) (p : plugin)
    (t : task) : Prop :=
  match t with
  | Finished r => r = settled unicode_alnum CDN_URL net disk plugins i p
  | Suspended q k =>
      q = p ∧ ¬ duplicate plugins i p ∧ k < MAX_RETRIES
      ∧ alone unicode_alnum CDN_URL net disk p
          (next_count (name_count st) (display_name p))
          (seq k (MAX_RETRIES - k))
        = alone unicode_alnum CDN_URL net disk p 0 (seq 0 MAX_RETRIES)
  end.

Definition tasks_settled (unicode_alnum : N → bool) (CDN_URL : str)
    (net : str → nat → option str) (disk : str → nat → bool)
    (plugins : list plugin) (st : fetch_state) : Prop :=
  ∀ i p, plugins !! i = Some p →
    ∃ t, tasks st !! i = Some t
         ∧ slot_settled unicode_alnum CDN_URL net disk plugins st i p t.

(** ** Inputs of the examples *)

(** A stand-in for the Unicode table on ASCII inputs, for which the table
    is not consulted. *)
Definition ascii_table : N → bool := λ _, false.

(** A network that answers every request with the URL as the body, and one
    that answers none. *)
Definition net_ok : str → nat → option str := λ u _, Some u.
Definition net_down : str → nat → option str := λ _ _, None.

(** A disk on which every write goes through, one on which the first write
    of every task raises, and one on which every write raises. *)
Definition disk_ok : str → nat → bool := λ _ _, true.
Definition disk_late : str → nat → bool := λ _ retry, negb (retry =? 0).
Definition disk_full : str → nat → bool := λ _ _, false.

(** Completion times that follow the order of the input, and the reverse
    order. *)
Definition in_order : nat → nat → nat := λ i _, i.
Definition in_reverse : nat → nat → nat := λ i _, 5 - i.

Definition http (path : string) : str := lit "http://x/" ++ lit path.

Definition named (n path : string) : plugin :=
  {| url := http path; name := Some (lit n); extra := [] |}.

Definition foo_thrice : list plugin :=
  [named "Foo" "1.js"; named "Foo" "2.js"; named "Foo" "3.js"].

Definition same_url_twice : list plugin :=
  [named "A" "1.js"; named "B" "1.js"].

Definition space_and_underscore : list plugin :=
  [named "a b" "1.js"; named "a_b" "2.js"].

Definition nameless : plugin :=
  {| url := http "QQ.js"; name := None; extra := [] |}.

(** A subscription network on which one source answers at its second
    attempt, and every other source raises. *)
Definition sub_net_one : str → nat → sub_response :=
  λ s retry,
    if bool_decide (s = http "good.json") && (retry =? 1)
    then SubJson (Some [named "A" "1.js"])
    else SubRaises.


(** A world where everything outside the program works, for the given
    configuration file and download network. *)
Definition world_of (file : option origins) (net : str → nat → option str)
  : world :=
  {| js_dir_exists := true; reset := ResetDone; origins_file := file;
     sub_net := λ _ _, SubRaises; net := net; disk := disk_ok;
     finish := in_order; writable := λ _, true |}.

(** ** Notions used in the further properties *)

(** [sub in s] of Python: [sub] is a run of consecutive characters of [s]. *)
Definition occurs (sub s : str) : Prop := ∃ pre post, s = pre ++ sub ++ post.

(** The two terms that [download_and_process_plugin] replaces. *)
Definition WANGYIYUN : str := [32593%N; 26131%N; 20113%N].
Definition QQ : str := lit "QQ".

(** A task that returned with success. *)
Definition succeeded (t : task) : bool :=
  match t with
  | Finished (true, _, _) => true
  | _ => false
  end.

(** The events that end a complete run: the two manifests and the final
    message. *)
Definition is_done (e : event) : bool :=
  match e with Log Success (Done _) => true | _ => false end.
Definition final (e : event) : bool := writes_manifest e || is_done e.

(** A warning or an error in the log. *)
Definition is_alert (e : event) : bool :=
  match e with Log Warning _ | Log Error _ => true | _ => false end.

(** * Properties *)

(** ** Strings *)

Lemma replace_one_char (a b : N) (s : str) :
  Py.replace [a] [b] s = (λ c, if (c =? a)%N then b else c) <$> s.
Proof.
  unfold Py.replace. induction s as [|c s IH]; [done|].
  cbn [Py.replace_from Py.startswith length fmap list_fmap].
  rewrite N.eqb_sym, andb_true_r.
  destruct (c =? a)%N; cbn; by rewrite IH.
Qed.

Lemma rstrip_last (c : N) (s : str) : last (Py.rstrip c s) ≠ Some c.
Proof.
  induction s as [|x s IH]; cbn; [done|].
  destruct (Py.rstrip c s) as [|y r] eqn:E.
  - destruct (N.eqb_spec x c); cbn; congruence.
  - exact IH.
Qed.

Lemma rstrip_suffix (c : N) (s : str) :
  ∃ k, s = Py.rstrip c s ++ replicate k c.
Proof.
  induction s as [|x s [k IH]]; cbn; [by exists 0|].
  destruct (Py.rstrip c s) as [|y r] eqn:E.
  - destruct (N.eqb_spec x c) as [->|_].
    + exists (S k). cbn. by rewrite IH at 1.
    + exists k. cbn. by rewrite IH at 1.
  - exists k. cbn. by rewrite IH at 1.
Qed.

(** ** [sanitize_filename] *)

Section SanitizeFacts.

Variable unicode_alnum : N → bool.

Lemma sanitize_filename_unfold (name : str) :
  sanitize_filename unicode_alnum name =
    let cleaned :=
      (λ c, if (c =? 32)%N then 95%N else c)
        <$> List.filter (kept unicode_alnum) name in
    if decide (cleaned = []) then lit "plugin" else take 50 cleaned.
Proof.
  unfold sanitize_filename. rewrite replace_one_char. cbn zeta.
  by destruct (_ <$> _).
Qed.

Lemma sanitize_filename_nonempty (name : str) :
  sanitize_filename unicode_alnum name ≠ [].
Proof.
  unfold sanitize_filename.
  by destruct (Py.replace _ _ _).
Qed.

Lemma sanitize_filename_length (name : str) :
  length (sanitize_filename unicode_alnum name) ≤ 50.
Proof.
  unfold sanitize_filename.
  destruct (Py.replace _ _ _) eqn:E; [cbn; lia|].
  rewrite length_take. lia.
Qed.

Lemma kept_not_slash (c : N) :
  kept unicode_alnum c = true → c ≠ 47%N.
Proof. intros H ->. vm_compute in H. done. Qed.

Lemma sanitize_filename_no_slash (name : str) :
  47%N ∉ sanitize_filename unicode_alnum name.
Proof.
  rewrite sanitize_filename_unfold. cbn zeta.
  case_decide as E; [compute_done|].
  intros Hin%subseteq_take.
  apply list_elem_of_fmap in Hin as (c & Hc & Hin).
  apply list_elem_of_In, filter_In in Hin as [_ Hk].
  destruct (N.eqb_spec c 32); [done|].
  by apply kept_not_slash in Hk.
Qed.

End SanitizeFacts.

(** ** Resolved names *)

Lemma lit_inj (s1 s2 : string) : lit s1 = lit s2 → s1 = s2.
Proof.
  revert s2. induction s1 as [|a s1 IH]; intros [|b s2] Heq; try done.
  unfold lit in Heq. cbn in Heq. injection Heq as Hab Hrest.
  apply (f_equal ascii_of_N) in Hab. rewrite !ascii_N_embedding in Hab.
  f_equal; [done|]. by apply IH.
Qed.

Lemma str_of_nat_inj (n m : nat) : Py.str_of_nat n = Py.str_of_nat m → n = m.
Proof.
  intros Heq%lit_inj.
  apply (f_equal NilEmpty.uint_of_string) in Heq.
  rewrite !NilEmpty.usu in Heq. injection Heq as Heq.
  apply (f_equal Nat.of_uint) in Heq.
  by rewrite !DecimalNat.Unsigned.of_to in Heq.
Qed.

Lemma suffixed_inj (b : str) (k1 k2 : nat) :
  suffixed b k1 = suffixed b k2 → k1 = k2.
Proof.
  unfold suffixed. destruct k1 as [|k1], k2 as [|k2]; try done.
  - intros Heq. apply (f_equal length) in Heq.
    rewrite !length_app in Heq. cbn in Heq. lia.
  - intros Heq. apply (f_equal length) in Heq.
    rewrite !length_app in Heq. cbn in Heq. lia.
  - intros Heq%app_inv_head. injection Heq as Heq.
    by apply str_of_nat_inj.
Qed.

Lemma next_count_insert (nc : gmap str nat) (b : str) :
  next_count (<[b := next_count nc b]> nc) b = S (next_count nc b).
Proof. unfold next_count at 1. by rewrite lookup_insert_eq. Qed.

Lemma next_count_insert_ne (nc : gmap str nat) (b b' : str) (n : nat) :
  b ≠ b' → next_count (<[b := n]> nc) b' = next_count nc b'.
Proof. intros Hne. unfold next_count. by rewrite lookup_insert_ne. Qed.

(** A counter, once set, stays set, and does not decrease. *)
Lemma name_count_grows (nc : gmap str nat) (b b' : str) (c : nat) :
  nc !! b' = Some c →
  ∃ c', <[b := next_count nc b]> nc !! b' = Some c' ∧ c ≤ c'.
Proof.
  intros Hc. destruct (decide (b = b')) as [->|Hne].
  - rewrite lookup_insert_eq. unfold next_count. rewrite Hc. eauto.
  - rewrite lookup_insert_ne by done. eauto.
Qed.

(** ** The attempts of a download *)

Lemma first_response_Some (net : str → nat → option str) (u : str) :
  is_Some (first_response net u)
  ↔ ∃ retry, retry < MAX_RETRIES ∧ is_Some (net u retry).
Proof.
  unfold first_response, MAX_RETRIES. cbn. split.
  - destruct (net u 0) eqn:E0; [exists 0; rewrite E0; eauto|].
    destruct (net u 1) eqn:E1; [exists 1; rewrite E1; eauto|].
    destruct (net u 2) eqn:E2; [exists 2; rewrite E2; eauto|].
    cbn. by intros [? ?].
  - intros (retry & Hlt & Hs).
    destruct retry as [|[|[|?]]]; [| | |lia];
      destruct (net u 0), (net u 1), (net u 2); cbn; eauto;
      by destruct Hs.
Qed.

Lemma first_response_None (net : str → nat → option str) (u : str) :
  first_response net u = None
  ↔ ∀ retry, retry < MAX_RETRIES → net u retry = None.
Proof.
  split.
  - intros Hnone retry Hlt. destruct (net u retry) as [text|] eqn:E; [|done].
    assert (is_Some (first_response net u)) as [t Ht].
    { apply first_response_Some. exists retry. by rewrite E. }
    congruence.
  - intros Hall. destruct (first_response net u) as [text|] eqn:E; [|done].
    assert (is_Some (first_response net u)) as Hs by (by rewrite E).
    apply first_response_Some in Hs as (retry & Hlt & [t Ht]).
    rewrite (Hall retry Hlt) in Ht. done.
Qed.

Lemma stored_true net disk (u : str) (retry : nat) :
  stored net disk u retry = true
  ↔ ∃ text, net u retry = Some text ∧ disk u retry = true.
Proof.
  unfold stored. destruct (net u retry) as [text|]; split.
  - intros Hd. by exists text.
  - by intros (t & _ & Hd).
  - done.
  - by intros (t & Ht & _).
Qed.

Lemma on_exception_cases (p : plugin) (k : nat) :
  (k = MAX_RETRIES - 1 ∧ on_exception p k = Finished (false, p, p))
  ∨ (k ≠ MAX_RETRIES - 1 ∧ on_exception p k = Suspended p (k + 1)).
Proof.
  unfold on_exception.
  destruct (Nat.eqb_spec k (MAX_RETRIES - 1)); [by left|by right].
Qed.

Lemma on_exception_not_succeeded (p : plugin) (k : nat) :
  succeeded (on_exception p k) = false.
Proof. unfold on_exception. by destruct (k =? _). Qed.

(** ** The results of the tasks *)

Lemma split_results_eq (results : list result) (valid original : list plugin) :
  split_results results valid original =
    (valid ++ ((λ r : result, r.1.2) <$> List.filter (λ r : result, r.1.1) results),
     original ++ (snd <$> results)).
Proof.
  revert valid original.
  induction results as [|[[[] new] orig] rs IH]; intros valid original; cbn.
  - by rewrite !app_nil_r.
  - by rewrite IH, <- !app_assoc.
  - by rewrite IH, <- !app_assoc.
Qed.

Lemma filter_length_all {A} (f : A → bool) (l : list A) :
  length (List.filter f l) ≤ length l
  ∧ (length (List.filter f l) = length l ↔ ∀ x, x ∈ l → f x = true).
Proof.
  induction l as [|a l [IH1 IH2]]; cbn.
  - split; [lia|]. split; [|done]. intros _ x Hx. by apply elem_of_nil in Hx.
  - destruct (f a) eqn:E; cbn.
    + split; [lia|]. split.
      * intros H x [->|Hx]%elem_of_cons; [done|]. apply IH2; [lia|done].
      * intros H. f_equal. apply IH2. intros x Hx. apply H. by right.
    + split; [lia|]. split; [lia|].
      intros H. specialize (H a (list_elem_of_here _ _)). congruence.
Qed.

Lemma filter_all {A} (f : A → bool) (l : list A) :
  Forall (λ x, f x = true) l → List.filter f l = l.
Proof.
  induction 1 as [|x l Hx _ IH]; [done|]. cbn. by rewrite Hx, IH.
Qed.

Lemma gather_cons_finished r ts : gather (Finished r :: ts) = r :: gather ts.
Proof. done. Qed.

Lemma gather_finished (ts : list task) :
  (∀ i t, ts !! i = Some t → ∃ r, t = Finished r) →
  Finished <$> gather ts = ts.
Proof.
  induction ts as [|t ts IH]; intros Hall; [done|].
  destruct (Hall 0 t eq_refl) as [r ->].
  rewrite gather_cons_finished. cbn. f_equal.
  apply IH. intros i t' Hi. by apply (Hall (S i)).
Qed.

(** ** The start of the tasks *)

Lemma start_tasks_length (seen : gset str) (plugins : list plugin) :
  length (start_tasks seen plugins) = length plugins.
Proof.
  revert seen. induction plugins as [|p ps IH]; intros seen; cbn; [done|].
  case_decide; cbn; by rewrite IH.
Qed.

Lemma start_tasks_lookup (seen : gset str) (plugins : list plugin) i p :
  plugins !! i = Some p →
  start_tasks seen plugins !! i =
    Some (if decide (url p ∈ seen ∨ duplicate plugins i p)
          then Finished (false, p, p) else Suspended p 0).
Proof.
  unfold duplicate. revert seen i.
  induction plugins as [|q ps IH]; intros seen i Hi; [done|].
  destruct i as [|i]; cbn in Hi |- *.
  - injection Hi as ->.
    destruct (decide (url p ∈ seen)) as [Hs|Hs];
      destruct (decide _) as [Hd|Hd]; try done.
    + destruct Hd. by left.
    + destruct Hd as [?|Hd]; [done|]. by apply elem_of_nil in Hd.
  - assert (∀ seen', (url p ∈ seen' ↔ url p ∈ seen ∨ url p = url q) →
      start_tasks seen' ps !! i =
        Some (if decide (url p ∈ seen ∨ url p ∈ url q :: (url <$> take i ps))
              then Finished (false, p, p) else Suspended p 0)) as Hrec.
    { intros seen' Hiff. rewrite (IH _ _ Hi).
      destruct (decide _) as [Hd|Hd]; destruct (decide _) as [He|He];
        try done; exfalso.
      - apply He. rewrite elem_of_cons. rewrite Hiff in Hd. tauto.
      - apply Hd. rewrite elem_of_cons in He. rewrite Hiff. tauto. }
    destruct (decide (url q ∈ seen)) as [Hs|Hs]; cbn; apply Hrec.
    + split; [tauto|]. intros [?| ->]; done.
    + rewrite elem_of_union, elem_of_singleton. tauto.
Qed.

Lemma start_tasks_empty_lookup (plugins : list plugin) i p :
  plugins !! i = Some p →
  start_tasks ∅ plugins !! i =
    Some (if decide (duplicate plugins i p)
          then Finished (false, p, p) else Suspended p 0).
Proof.
  intros Hi. rewrite (start_tasks_lookup _ _ _ _ Hi).
  destruct (decide (duplicate plugins i p)) as [Hd|Hd];
    destruct (decide _) as [He|He]; try done; exfalso.
  - apply He. by right.
  - destruct He as [He|He]; [by apply elem_of_empty in He|done].
Qed.

Lemma NoDup_no_earlier {A} (l : list A) :
  NoDup l ↔ ∀ i x, l !! i = Some x → x ∉ take i l.
Proof.
  rewrite NoDup_alt. split.
  - intros Hnd i x Hi (j & Hj & Hlt)%elem_of_take.
    specialize (Hnd _ _ _ Hi Hj). lia.
  - intros H i j x Hi Hj.
    destruct (Nat.lt_trichotomy i j) as [Hlt|[?|Hlt]]; [exfalso|done|exfalso].
    + apply (H _ _ Hj). apply elem_of_take. eauto.
    + apply (H _ _ Hi). apply elem_of_take. eauto.
Qed.

Lemma NoDup_urls (plugins : list plugin) :
  NoDup (url <$> plugins)
  ↔ ∀ i p, plugins !! i = Some p → ¬ duplicate plugins i p.
Proof.
  unfold duplicate. rewrite NoDup_no_earlier. split.
  - intros H i p Hi. rewrite fmap_take. apply H.
    by rewrite list_lookup_fmap, Hi.
  - intros H i u Hi. rewrite list_lookup_fmap in Hi.
    destruct (plugins !! i) as [p|] eqn:Hp; [|done].
    injection Hi as <-. rewrite <- fmap_take. by apply H.
Qed.

Lemma first_with_url (plugins : list plugin) (u : str) :
  u ∈ url <$> plugins →
  ∃ i p, plugins !! i = Some p ∧ url p = u ∧ ¬ duplicate plugins i p
    ∧ ∀ j q, plugins !! j = Some q → url q = u → j ≠ i →
        duplicate plugins j q.
Proof.
  intros (p0 & Hu & Hin)%list_elem_of_fmap.
  destruct (list_find_elem_of (λ p, url p = u) plugins p0 Hin (eq_sym Hu))
    as [[i p] Hfind].
  apply list_find_Some in Hfind as (Hi & Hp & Hmin).
  exists i, p. split; [done|]. split; [done|]. split.
  - unfold duplicate.
    intros (q & Hq & (j & Hj & Hlt)%elem_of_take)%list_elem_of_fmap.
    apply (Hmin j q Hj Hlt). congruence.
  - intros j q Hj Hq Hne. unfold duplicate.
    assert (i < j) as Hlt.
    { destruct (Nat.lt_trichotomy i j) as [?|[?|Hlt]]; [done|congruence|].
      by destruct (Hmin j q Hj Hlt). }
    apply list_elem_of_fmap. exists p. split; [congruence|].
    apply elem_of_take. eauto.
Qed.

(** ** The order of completion *)

Lemma resumed_cons (order : list nat) (i j : nat) :
  resumed (j :: order) i =
    (if decide (j = i) then 1 else 0) + resumed order i.
Proof. unfold resumed. rewrite filter_cons. by case_decide. Qed.

Lemma resumed_app (order1 order2 : list nat) (i : nat) :
  resumed (order1 ++ order2) i = resumed order1 i + resumed order2 i.
Proof. unfold resumed. by rewrite filter_app, length_app. Qed.

Lemma resumed_seq (a n i : nat) :
  resumed (seq a n) i = if decide (a ≤ i < a + n) then 1 else 0.
Proof.
  revert a. induction n as [|n IH]; intros a; cbn [seq].
  - unfold resumed. rewrite filter_nil. case_decide; [lia|done].
  - rewrite resumed_cons, IH. repeat case_decide; lia.
Qed.

Lemma resumed_perm (order1 order2 : list nat) (i : nat) :
  order1 ≡ₚ order2 → resumed order1 i = resumed order2 i.
Proof. intros Hp. unfold resumed. by rewrite Hp. Qed.

Lemma attempts_tasks (n : nat) :
  fst <$> attempts n = seq 0 n ++ seq 0 n ++ seq 0 n.
Proof.
  assert (∀ (retry : nat) (l : list nat),
            fst <$> ((λ i, (i, retry)) <$> l) = l) as Hfst.
  { intros retry l. induction l as [|x l IH]; [done|]. cbn. by rewrite IH. }
  unfold attempts, MAX_RETRIES. cbn [seq mbind list_bind].
  by rewrite !fmap_app, !Hfst, app_nil_r.
Qed.

(** Every task is resumed [MAX_RETRIES] times. *)
Lemma completion_order_resumed finish n i :
  resumed (completion_order finish n) i = if decide (i < n) then MAX_RETRIES else 0.
Proof.
  unfold completion_order.
  rewrite (resumed_perm _ (fst <$> attempts n)).
  - rewrite attempts_tasks, !resumed_app, resumed_seq. unfold MAX_RETRIES.
    repeat case_decide; lia.
  - apply fmap_Permutation, merge_sort_Permutation.
Qed.

Lemma completion_order_complete finish n :
  complete (completion_order finish n) n.
Proof.
  intros i Hi. rewrite completion_order_resumed. by rewrite decide_True.
Qed.

(** One task: its three attempts. *)
Lemma completion_order_one finish : completion_order finish 1 = [0; 0; 0].
Proof.
  unfold completion_order.
  assert (∀ l : list (nat * nat),
            l ≡ₚ attempts 1 → fst <$> l = [0; 0; 0]) as Hl.
  { intros l Hp.
    assert (fst <$> l ≡ₚ replicate 3 0) as Hr.
    { rewrite Hp. by rewrite attempts_tasks. }
    symmetry. exact (replicate_Permutation 3 0 _ (symmetry Hr)). }
  apply Hl, merge_sort_Permutation.
Qed.

(** ** The run of the tasks *)

Section FetchFacts.

Variable unicode_alnum : N → bool.
Variable CDN_URL : str.
Variable net : str → nat → option str.
Variable disk : str → nat → bool.

Local Abbreviation resume_task := (resume unicode_alnum CDN_URL net disk).
Local Abbreviation run := (run_tasks unicode_alnum CDN_URL net disk).
Local Abbreviation slot := (slot_ok unicode_alnum CDN_URL net disk).
Local Abbreviation ok := (tasks_ok unicode_alnum CDN_URL net disk).
Local Abbreviation run_of := (fetch_run unicode_alnum CDN_URL net disk).
Local Abbreviation results_of :=
  (fetch_results unicode_alnum CDN_URL net disk).

(** The state in which the tasks of [plugins] start. *)
Local Abbreviation started plugins :=
  {| name_count := ∅; js_writes := []; tasks := start_tasks ∅ plugins |}.

Lemma process_response_eq (nc : gmap str nat) (p : plugin) (text : str)
    (written : bool) :
  process_response unicode_alnum CDN_URL nc p text written =
    let b := display_name p in
    let plugin_name := suffixed b (next_count nc b) in
    (<[b := next_count nc b]> nc,
     if written
     then
       Some (WriteJs (filename_of unicode_alnum plugin_name) text,
             (true,
              set_url
                (mirror_url CDN_URL (filename_of unicode_alnum plugin_name))
                (set_name plugin_name p),
              set_name plugin_name p))
     else None).
Proof.
  unfold process_response, next_count, mirror_url, filename_of, USE_CDN.
  fold (display_name p). cbn zeta.
  destruct (nc !! display_name p); destruct written; destruct CDN_URL;
    by rewrite <- ?app_assoc.
Qed.

(** What resuming a suspended task does. *)
Lemma resume_suspended st i p k :
  tasks st !! i = Some (Suspended p k) →
  resume_task st i =
    let b := display_name p in
    let plugin_name := suffixed b (next_count (name_count st) b) in
    match net (url p) k with
    | Some text =>
        if disk (url p) k
        then
          {| name_count := <[b := next_count (name_count st) b]> (name_count st);
             js_writes :=
               js_writes st
               ++ [WriteJs (filename_of unicode_alnum plugin_name) text];
             tasks :=
               <[i := Finished
                        (true,
                         set_url
                           (mirror_url CDN_URL
                              (filename_of unicode_alnum plugin_name))
                           (set_name plugin_name p),
                         set_name plugin_name p)]> (tasks st) |}
        else
          {| name_count := <[b := next_count (name_count st) b]> (name_count st);
             js_writes := js_writes st;
             tasks := <[i := on_exception p k]> (tasks st) |}
    | None =>
        {| name_count := name_count st;
           js_writes := js_writes st;
           tasks := <[i := on_exception p k]> (tasks st) |}
    end.
Proof.
  intros Hi. unfold resume, download_and_process_plugin. rewrite Hi.
  destruct (net (url p) k) as [text|]; cbn zeta.
  - rewrite process_response_eq. cbn zeta.
    destruct (disk (url p) k); cbn; by rewrite ?app_nil_r.
  - by rewrite app_nil_r.
Qed.

Lemma resume_not_suspended st i :
  (∀ p k, tasks st !! i ≠ Some (Suspended p k)) → resume_task st i = st.
Proof.
  intros Hi. unfold resume.
  destruct (tasks st !! i) as [[r|p k]|]; try done. by destruct (Hi p k).
Qed.

Lemma resume_length st i : length (tasks (resume_task st i)) = length (tasks st).
Proof.
  destruct (tasks st !! i) as [[r|p k]|] eqn:Hi;
    [by rewrite resume_not_suspended by congruence| |
     by rewrite resume_not_suspended by congruence].
  rewrite (resume_suspended _ _ _ _ Hi). cbn zeta.
  destruct (net (url p) k); [destruct (disk (url p) k)|]; cbn;
    apply length_insert.
Qed.

Lemma resume_lookup_ne st i j :
  i ≠ j → tasks (resume_task st i) !! j = tasks st !! j.
Proof.
  intros Hne.
  destruct (tasks st !! i) as [[r|p k]|] eqn:Hi;
    [by rewrite resume_not_suspended by congruence| |
     by rewrite resume_not_suspended by congruence].
  rewrite (resume_suspended _ _ _ _ Hi). cbn zeta.
  destruct (net (url p) k); [destruct (disk (url p) k)|]; cbn;
    by apply list_lookup_insert_ne.
Qed.

Lemma resume_finished st i j r :
  tasks st !! j = Some (Finished r) →
  tasks (resume_task st i) !! j = Some (Finished r).
Proof.
  intros Hj. destruct (decide (i = j)) as [->|Hne].
  - rewrite resume_not_suspended; [done|]. congruence.
  - by rewrite resume_lookup_ne.
Qed.

(** The counters and the writes only grow. *)
Lemma resume_grows st i :
  (∀ b c, name_count st !! b = Some c →
     ∃ c', name_count (resume_task st i) !! b = Some c' ∧ c ≤ c')
  ∧ (∀ e, e ∈ js_writes st → e ∈ js_writes (resume_task st i)).
Proof.
  destruct (tasks st !! i) as [[r|p k]|] eqn:Hi;
    [rewrite resume_not_suspended by congruence; by eauto| |
     rewrite resume_not_suspended by congruence; by eauto].
  rewrite (resume_suspended _ _ _ _ Hi). cbn zeta.
  destruct (net (url p) k); [destruct (disk (url p) k)|]; cbn;
    (split; [|intros e He; rewrite ?elem_of_app; by eauto]);
    intros b c Hc; by eauto using name_count_grows.
Qed.

Lemma run_tasks_cons i order st :
  run (i :: order) st = run order (resume_task st i).
Proof. done. Qed.

Lemma run_tasks_snoc order i st :
  run (order ++ [i]) st = resume_task (run order st) i.
Proof. unfold run_tasks. by rewrite foldl_app. Qed.

(** What holds at the start and is kept by every step holds of every run. *)
Lemma run_tasks_invariant (P : fetch_state → Prop) order st :
  (∀ st i, P st → P (resume_task st i)) → P st → P (run order st).
Proof.
  intros Hstep. revert st.
  induction order as [|i order IH]; intros st Hst; [done|].
  rewrite run_tasks_cons. by apply IH, Hstep.
Qed.

Lemma run_tasks_length order st :
  length (tasks (run order st)) = length (tasks st).
Proof.
  induction order as [|i order IH] using rev_ind; [done|].
  by rewrite run_tasks_snoc, resume_length.
Qed.

Lemma run_tasks_finished order st j r :
  tasks st !! j = Some (Finished r) →
  tasks (run order st) !! j = Some (Finished r).
Proof.
  induction order as [|i order IH] using rev_ind; [done|].
  intros Hj. rewrite run_tasks_snoc. by apply resume_finished, IH.
Qed.

(** A task that is resumed for each of the attempts that it has left
    returns. *)
Lemma run_tasks_returns order st i p k :
  tasks st !! i = Some (Suspended p k) →
  k < MAX_RETRIES →
  MAX_RETRIES - k ≤ resumed order i →
  ∃ r, tasks (run order st) !! i = Some (Finished r).
Proof.
  revert st k. induction order as [|j order IH]; intros st k Hi Hk Hn.
  { unfold resumed, MAX_RETRIES in *. rewrite filter_nil in Hn. cbn in Hn.
    lia. }
  rewrite run_tasks_cons. rewrite resumed_cons in Hn.
  destruct (decide (j = i)) as [->|Hne].
  - assert (i < length (tasks st)) as Hlt by by eapply lookup_lt_Some.
    assert (∀ nc ws,
              ∃ r, tasks (run order
                            {| name_count := nc; js_writes := ws;
                               tasks := <[i := on_exception p k]> (tasks st) |})
                     !! i = Some (Finished r)) as Hexc.
    { intros nc ws.
      destruct (on_exception_cases p k) as [[Hk2 ->]|[Hk2 ->]].
      - eexists. apply run_tasks_finished. cbn.
        by apply list_lookup_insert_eq.
      - apply (IH _ (k + 1)).
        + cbn. by apply list_lookup_insert_eq.
        + lia.
        + lia. }
    rewrite (resume_suspended _ _ _ _ Hi). cbn zeta.
    destruct (net (url p) k) as [text|]; [destruct (disk (url p) k)|];
      [|apply Hexc..].
    eexists. apply run_tasks_finished. cbn. by apply list_lookup_insert_eq.
  - apply (IH _ k); [by rewrite resume_lookup_ne|done|lia].
Qed.

Lemma started_lookup plugins i p :
  plugins !! i = Some p →
  tasks (started plugins) !! i =
    Some (if decide (duplicate plugins i p)
          then Finished (false, p, p) else Suspended p 0).
Proof. apply start_tasks_empty_lookup. Qed.

Lemma fetch_run_length order plugins :
  length (tasks (run_of order plugins)) = length plugins.
Proof. unfold fetch_run. rewrite run_tasks_length. apply start_tasks_length. Qed.

(** When [order] is complete, every task returns. *)
Lemma fetch_run_returns order plugins i :
  complete order (length plugins) →
  i < length plugins →
  ∃ r, tasks (run_of order plugins) !! i = Some (Finished r).
Proof.
  intros Hc Hi. destruct (lookup_lt_is_Some_2 plugins i Hi) as [p Hp].
  pose proof (started_lookup plugins i p Hp) as Hs. unfold fetch_run.
  destruct (decide (duplicate plugins i p)).
  - exists (false, p, p). by apply run_tasks_finished.
  - apply (run_tasks_returns _ _ _ p 0); [done|unfold MAX_RETRIES; lia|].
    rewrite Nat.sub_0_r. by apply Hc.
Qed.

(** [gather] then gives one result per descriptor. *)
Lemma fetch_results_tasks order plugins :
  complete order (length plugins) →
  Finished <$> results_of order plugins = tasks (run_of order plugins).
Proof.
  intros Hc. apply gather_finished. intros i t Hi.
  pose proof (lookup_lt_Some _ _ _ Hi) as Hlt.
  rewrite fetch_run_length in Hlt.
  destruct (fetch_run_returns order plugins i Hc Hlt) as [r Hr].
  exists r. congruence.
Qed.

Lemma fetch_results_length order plugins :
  complete order (length plugins) →
  length (results_of order plugins) = length plugins.
Proof.
  intros Hc.
  rewrite <- (length_fmap Finished), fetch_results_tasks by done.
  apply fetch_run_length.
Qed.

Lemma fetch_results_lookup order plugins i r :
  complete order (length plugins) →
  tasks (run_of order plugins) !! i = Some (Finished r) →
  results_of order plugins !! i = Some r.
Proof.
  intros Hc Hr. rewrite <- (fetch_results_tasks order plugins Hc) in Hr.
  rewrite list_lookup_fmap in Hr.
  destruct (results_of order plugins !! i); cbn in Hr; congruence.
Qed.

(** *** The invariant [tasks_ok] *)

Lemma slot_ok_mono plugins st st' i p t :
  (∀ b c, name_count st !! b = Some c →
     ∃ c', name_count st' !! b = Some c' ∧ c ≤ c') →
  (∀ e, e ∈ js_writes st → e ∈ js_writes st') →
  slot plugins st i p t → slot plugins st' i p t.
Proof.
  intros Hnc Hw. destruct t as [[[[] new] orig]|q k]; cbn; try done.
  intros (Hd & retry & text & n & c & Hr & Hnet & Hdisk & Hc & Hle & Hnew
          & Horig & Hin).
  split; [done|]. destruct (Hnc _ _ Hc) as (c' & Hc' & Hle').
  exists retry, text, n, c'.
  repeat split; try done; [lia|by apply Hw].
Qed.

Lemma on_exception_ok plugins st i p k :
  ¬ duplicate plugins i p →
  k < MAX_RETRIES →
  (∀ j, j < k → stored net disk (url p) j = false) →
  stored net disk (url p) k = false →
  slot plugins st i p (on_exception p k).
Proof.
  intros Hd Hk Hbefore Hat.
  assert (∀ j, j < k + 1 → stored net disk (url p) j = false) as Hall.
  { intros j Hj. destruct (decide (j = k)) as [->|Hne]; [done|].
    apply Hbefore. lia. }
  destruct (on_exception_cases p k) as [[Hk2 ->]|[Hk2 ->]]; cbn.
  - split; [done|]. split; [done|]. right. intros j Hj. apply Hall. lia.
  - repeat split; try done. lia.
Qed.

Lemma resume_ok plugins st m : ok plugins st → ok plugins (resume_task st m).
Proof.
  intros Hst i p Hp. destruct (Hst i p Hp) as (t & Ht & Hslot).
  destruct (resume_grows st m) as [Hnc Hw].
  destruct (decide (m = i)) as [->|Hne].
  2:{ exists t. split; [by rewrite resume_lookup_ne|].
      by apply (slot_ok_mono plugins st). }
  destruct t as [r|q k].
  { exists (Finished r). split; [by apply resume_finished|].
    by apply (slot_ok_mono plugins st). }
  destruct Hslot as (-> & Hd & Hk & Hbefore).
  assert (i < length (tasks st)) as Hlt by by eapply lookup_lt_Some.
  rewrite (resume_suspended _ _ _ _ Ht). cbn zeta.
  destruct (net (url p) k) as [text|] eqn:Hnet;
    [destruct (disk (url p) k) eqn:Hdisk|].
  - eexists. split; [cbn; by apply list_lookup_insert_eq|].
    cbn. split; [done|].
    exists k, text, (next_count (name_count st) (display_name p)),
      (next_count (name_count st) (display_name p)).
    repeat split; try done.
    + by rewrite lookup_insert_eq.
    + rewrite elem_of_app. right. by left.
  - eexists. split; [cbn; by apply list_lookup_insert_eq|].
    apply on_exception_ok; try done. unfold stored. by rewrite Hnet.
  - eexists. split; [cbn; by apply list_lookup_insert_eq|].
    apply on_exception_ok; try done. unfold stored. by rewrite Hnet.
Qed.

Lemma started_ok plugins : ok plugins (started plugins).
Proof.
  intros i p Hp. rewrite (started_lookup _ _ _ Hp).
  eexists. split; [done|]. case_decide; cbn.
  - split; [done|]. split; [done|]. by left.
  - repeat split; try done; [unfold MAX_RETRIES; lia|]. intros j Hj. lia.
Qed.

Lemma fetch_run_ok order plugins : ok plugins (run_of order plugins).
Proof.
  unfold fetch_run. apply (run_tasks_invariant (ok plugins)).
  - intros st i. apply resume_ok.
  - apply started_ok.
Qed.

(** What the result of a descriptor is, in the final state. *)
Lemma fetch_results_slot order plugins i p :
  complete order (length plugins) →
  plugins !! i = Some p →
  ∃ r, results_of order plugins !! i = Some r
       ∧ slot plugins (run_of order plugins) i p (Finished r).
Proof.
  intros Hc Hp. destruct (fetch_run_ok order plugins i p Hp) as (t & Ht & Hok).
  destruct (fetch_run_returns order plugins i Hc) as [r Hr];
    [by eapply lookup_lt_Some|].
  rewrite Hr in Ht. injection Ht as <-. exists r. split; [|done].
  by apply fetch_results_lookup.
Qed.

Lemma fetch_results_inv order plugins i r :
  complete order (length plugins) →
  results_of order plugins !! i = Some r →
  ∃ p, plugins !! i = Some p
       ∧ slot plugins (run_of order plugins) i p (Finished r).
Proof.
  intros Hc Hr. pose proof (lookup_lt_Some _ _ _ Hr) as Hlt.
  rewrite fetch_results_length in Hlt by done.
  destruct (lookup_lt_is_Some_2 plugins i Hlt) as [p Hp].
  destruct (fetch_results_slot order plugins i p Hc Hp) as (r' & Hr' & Hok).
  exists p. split; [done|]. congruence.
Qed.

(** A descriptor that is not a duplicate and of which one attempt gets a
    response and writes it is returned as a success. *)
Lemma fetch_results_success order plugins i p :
  complete order (length plugins) →
  plugins !! i = Some p →
  ¬ duplicate plugins i p →
  (∃ retry, retry < MAX_RETRIES ∧ stored net disk (url p) retry = true) →
  ∃ new_plugin original_plugin,
    results_of order plugins !! i = Some (true, new_plugin, original_plugin)
    ∧ slot plugins (run_of order plugins) i p
        (Finished (true, new_plugin, original_plugin)).
Proof.
  intros Hc Hp Hd (retry & Hlt & Hs).
  destruct (fetch_results_slot order plugins i p Hc Hp)
    as ([[[] new] orig] & Hr & Hok); [by eauto|].
  destruct Hok as (_ & _ & [Hdup|Hall]); [done|].
  rewrite (Hall retry Hlt) in Hs. done.
Qed.

(** The flag of a result. *)
Lemma fetch_results_flag order plugins i p r :
  complete order (length plugins) →
  plugins !! i = Some p →
  results_of order plugins !! i = Some r →
  r.1.1 = true
  ↔ ¬ duplicate plugins i p
    ∧ ∃ retry, retry < MAX_RETRIES ∧ stored net disk (url p) retry = true.
Proof.
  intros Hc Hp Hr.
  destruct (fetch_results_slot order plugins i p Hc Hp) as (r' & Hr' & Hok).
  assert (r' = r) as -> by congruence.
  destruct r as [[[] new] orig]; cbn in Hok |- *.
  - split; [intros _|done].
    destruct Hok as (Hd & retry & text & n & c & Hlt & Hnet & Hdisk & _).
    split; [done|]. exists retry. split; [done|].
    apply stored_true. eauto.
  - split; [done|]. intros (Hd & retry & Hlt & Hs).
    destruct Hok as (_ & _ & [Hdup|Hall]); [done|].
    rewrite (Hall retry Hlt) in Hs. done.
Qed.

(** *** The payloads written *)

Lemma fetch_run_named order plugins :
  Forall (λ e, ∃ plugin_name text,
            e = WriteJs (filename_of unicode_alnum plugin_name) text)
    (js_writes (run_of order plugins)).
Proof.
  unfold fetch_run.
  apply (run_tasks_invariant
           (λ st, Forall (λ e, ∃ plugin_name text,
                            e = WriteJs (filename_of unicode_alnum plugin_name)
                                  text)
                    (js_writes st))); [|constructor].
  intros st i Hst.
  destruct (tasks st !! i) as [[r|p k]|] eqn:Hi;
    [by rewrite resume_not_suspended by congruence| |
     by rewrite resume_not_suspended by congruence].
  rewrite (resume_suspended _ _ _ _ Hi). cbn zeta.
  destruct (net (url p) k); [destruct (disk (url p) k)|]; cbn; try done.
  apply Forall_app. split; [done|]. repeat constructor. by eexists _, _.
Qed.

Lemma filter_insert_length {A} (f : A → bool) (l : list A) i x y :
  l !! i = Some x →
  length (List.filter f (<[i:=y]> l)) + (if f x then 1 else 0)
  = length (List.filter f l) + (if f y then 1 else 0).
Proof.
  intros Hi. rewrite insert_take_drop by by eapply lookup_lt_Some.
  rewrite <- (take_drop_middle l i x Hi) at 3.
  rewrite !List.filter_app, !length_app. cbn.
  destruct (f x), (f y); cbn; lia.
Qed.

Lemma start_tasks_none_succeeded (seen : gset str) (plugins : list plugin) :
  List.filter succeeded (start_tasks seen plugins) = [].
Proof.
  revert seen. induction plugins as [|p ps IH]; intros seen; [done|].
  cbn. case_decide; cbn; apply IH.
Qed.

(** One write per task that returned a success. *)
Lemma fetch_run_files_count order plugins :
  length (js_writes (run_of order plugins))
  = length (List.filter succeeded (tasks (run_of order plugins))).
Proof.
  unfold fetch_run.
  apply (run_tasks_invariant
           (λ st, length (js_writes st)
                  = length (List.filter succeeded (tasks st)))).
  2:{ cbn. by rewrite start_tasks_none_succeeded. }
  intros st i Hst.
  destruct (tasks st !! i) as [[r|p k]|] eqn:Hi;
    [by rewrite resume_not_suspended by congruence| |
     by rewrite resume_not_suspended by congruence].
  rewrite (resume_suspended _ _ _ _ Hi). cbn zeta.
  destruct (net (url p) k); [destruct (disk (url p) k)|]; cbn [js_writes tasks].
  - match goal with
    | |- context [<[i := ?t]> (tasks st)] =>
        pose proof (filter_insert_length succeeded (tasks st) i _ t Hi) as Hc
    end.
    cbn in Hc. rewrite length_app. cbn. lia.
  - pose proof (filter_insert_length succeeded (tasks st) i _
                  (on_exception p k) Hi) as Hc.
    rewrite on_exception_not_succeeded in Hc. cbn in Hc. lia.
  - pose proof (filter_insert_length succeeded (tasks st) i _
                  (on_exception p k) Hi) as Hc.
    rewrite on_exception_not_succeeded in Hc. cbn in Hc. lia.
Qed.

Lemma filter_succeeded_finished (rs : list result) :
  length (List.filter succeeded (Finished <$> rs))
  = length (List.filter (λ r : result, r.1.1) rs).
Proof.
  induction rs as [|[[[] new] orig] rs IH]; cbn; [done| |done].
  by rewrite IH.
Qed.

(** *** Names that are kept apart *)

Lemma started_names_apart plugins : names_apart plugins (started plugins).
Proof.
  intros i j p q ni oi nj oj _ Hp _ _ Hi _.
  rewrite (started_lookup _ _ _ Hp) in Hi. by case_decide.
Qed.

Lemma resume_names_apart plugins st m :
  ok plugins st →
  names_apart plugins st → names_apart plugins (resume_task st m).
Proof.
  intros Hok Hap.
  destruct (tasks st !! m) as [[r|pm k]|] eqn:Hm;
    [by rewrite resume_not_suspended by congruence| |
     by rewrite resume_not_suspended by congruence].
  assert (m < length (tasks st)) as Hlt by by eapply lookup_lt_Some.
  assert (∀ nc ws, names_apart plugins
            {| name_count := nc; js_writes := ws;
               tasks := <[m := on_exception pm k]> (tasks st) |}) as Hexc.
  { intros nc ws i j p q ni oi nj oj Hne Hp Hq Hb Hi Hj. cbn in Hi, Hj.
    assert (∀ new orig, on_exception pm k ≠ Finished (true, new, orig))
      as Hno.
    { intros new orig.
      destruct (on_exception_cases pm k) as [[_ ->]|[_ ->]]; done. }
    destruct (decide (m = i)) as [->|Him].
    { rewrite list_lookup_insert_eq in Hi by done.
      injection Hi as Hi. by destruct (Hno ni oi). }
    destruct (decide (m = j)) as [->|Hjm].
    { rewrite list_lookup_insert_eq in Hj by done.
      injection Hj as Hj. by destruct (Hno nj oj). }
    rewrite list_lookup_insert_ne in Hi, Hj by done.
    by apply (Hap i j p q ni oi nj oj). }
  rewrite (resume_suspended _ _ _ _ Hm). cbn zeta.
  destruct (net (url pm) k) as [text|]; [destruct (disk (url pm) k)|];
    [|apply Hexc..].
  (* The task [m] returns a success: its suffix is above the counter. *)
  assert (∀ i j p q new_j original_j,
            m = i → i ≠ j →
            plugins !! i = Some p → plugins !! j = Some q →
            display_name p = display_name q →
            tasks st !! j = Some (Finished (true, new_j, original_j)) →
            Some (suffixed (display_name pm)
                    (next_count (name_count st) (display_name pm)))
            ≠ name new_j) as Hnew.
  { intros i j p q nj oj -> Hne Hp Hq Hb Hj.
    destruct (Hok i p Hp) as (t & Ht & Hslot).
    rewrite Hm in Ht. injection Ht as <-. destruct Hslot as (-> & _).
    destruct (Hok j q Hq) as (t & Ht & Hslot).
    rewrite Hj in Ht. injection Ht as <-.
    destruct Hslot as (_ & retry & text' & n & c & _ & _ & _ & Hc & Hle
                       & -> & _).
    cbn. rewrite Hb. intros Heq. injection Heq as Heq%suffixed_inj.
    unfold next_count in Heq. rewrite Hc in Heq. lia. }
  intros i j p q ni oi nj oj Hne Hp Hq Hb Hi Hj. cbn in Hi, Hj.
  destruct (decide (m = i)) as [Him|Him];
    destruct (decide (m = j)) as [Hjm|Hjm].
  - congruence.
  - subst i. rewrite list_lookup_insert_eq in Hi by done.
    rewrite list_lookup_insert_ne in Hj by done.
    injection Hi as <- _. cbn.
    by apply (Hnew m j p q nj oj).
  - subst j. rewrite list_lookup_insert_eq in Hj by done.
    rewrite list_lookup_insert_ne in Hi by done.
    injection Hj as <- _. cbn. intros Heq.
    by apply (Hnew m i q p ni oi eq_refl (not_eq_sym Hne) Hq Hp (eq_sym Hb) Hi).
  - rewrite list_lookup_insert_ne in Hi, Hj by done.
    by apply (Hap i j p q ni oi nj oj).
Qed.

Lemma fetch_run_names_apart order plugins :
  names_apart plugins (run_of order plugins).
Proof.
  unfold fetch_run.
  apply (run_tasks_invariant
           (λ st, ok plugins st ∧ names_apart plugins st)).
  - intros st i [Hok Hap]. split; [by apply resume_ok|].
    by apply resume_names_apart.
  - split; [apply started_ok|apply started_names_apart].
Qed.

(** *** Suffixes without a gap *)

Lemma resume_suffixes_used plugins st m :
  (∀ p retry, p ∈ plugins → retry < MAX_RETRIES →
     is_Some (net (url p) retry) → disk (url p) retry = true) →
  length (tasks st) = length plugins
  ∧ ok plugins st ∧ suffixes_used plugins st →
  length (tasks (resume_task st m)) = length plugins
  ∧ ok plugins (resume_task st m) ∧ suffixes_used plugins (resume_task st m).
Proof.
  intros Hw (Hlen & Hok & Hused).
  split; [by rewrite resume_length|]. split; [by apply resume_ok|].
  destruct (tasks st !! m) as [[r|pm k]|] eqn:Hm;
    [by rewrite resume_not_suspended by congruence| |
     by rewrite resume_not_suspended by congruence].
  assert (m < length (tasks st)) as Hlt by by eapply lookup_lt_Some.
  destruct (lookup_lt_is_Some_2 plugins m) as [pm' Hpm]; [lia|].
  destruct (Hok m pm' Hpm) as (tm & Htm & Hslot).
  rewrite Hm in Htm. injection Htm as <-.
  destruct Hslot as (Heq & _ & Hk & _). subst pm'.
  (* A suffix that was used stays used. *)
  assert (∀ b n nc ws t,
            n < next_count (name_count st) b →
            ∃ i p new_plugin original_plugin,
              plugins !! i = Some p ∧ display_name p = b
              ∧ tasks {| name_count := nc; js_writes := ws;
                         tasks := <[m := t]> (tasks st) |} !! i
                = Some (Finished (true, new_plugin, original_plugin))
              ∧ name new_plugin = Some (suffixed b n)) as Hkeep.
  { intros b n nc ws t Hn.
    destruct (Hused b n Hn) as (i & p & new & orig & Hp & Hb & Hi & Hname).
    exists i, p, new, orig. split; [done|]. split; [done|]. split; [|done].
    cbn [tasks]. rewrite list_lookup_insert_ne; [done|].
    intros ->. rewrite Hm in Hi. discriminate Hi. }
  rewrite (resume_suspended _ _ _ _ Hm). cbn zeta.
  destruct (net (url pm) k) as [text|] eqn:Hnet;
    [destruct (disk (url pm) k) eqn:Hdisk|].
  - intros b n Hn. cbn [name_count] in Hn.
    destruct (decide (display_name pm = b)) as [<-|Hb].
    + rewrite next_count_insert in Hn.
      destruct (decide (n = next_count (name_count st) (display_name pm)))
        as [->|Hne]; [|apply Hkeep; lia].
      eexists m, pm, _, _. split; [done|]. split; [done|].
      split; [cbn [tasks]; by apply list_lookup_insert_eq|]. done.
    + rewrite next_count_insert_ne in Hn by done. by apply Hkeep.
  - rewrite (Hw pm k) in Hdisk; [done| |done|by rewrite Hnet].
    by eapply list_elem_of_lookup_2.
  - intros b n Hn. by apply Hkeep.
Qed.

Lemma fetch_run_suffixes_used order plugins :
  (∀ p retry, p ∈ plugins → retry < MAX_RETRIES →
     is_Some (net (url p) retry) → disk (url p) retry = true) →
  suffixes_used plugins (run_of order plugins).
Proof.
  intros Hw. unfold fetch_run.
  apply (run_tasks_invariant
           (λ st, length (tasks st) = length plugins
                  ∧ ok plugins st ∧ suffixes_used plugins st)).
  - intros st m. by apply resume_suffixes_used.
  - split; [apply start_tasks_length|]. split; [apply started_ok|].
    intros b n Hn. unfold next_count in Hn. cbn [name_count] in Hn.
    rewrite lookup_empty in Hn. lia.
Qed.

(** *** Tasks that share their display name with no other *)

Local Abbreviation alone_of :=
  (alone unicode_alnum CDN_URL net disk).

Lemma alone_unanswered (p : plugin) (count : nat) (retries : list nat) :
  (∀ j, j ∈ retries → net (url p) j = None) →
  alone_of p count retries = (false, p, p).
Proof.
  revert count. induction retries as [|retry rest IH]; intros count Hall;
    [done|].
  cbn. rewrite (Hall retry) by by left.
  apply IH. intros j Hj. apply Hall. by right.
Qed.

Lemma seq_attempts (k : nat) :
  k < MAX_RETRIES →
  seq k (MAX_RETRIES - k) = k :: seq (S k) (MAX_RETRIES - S k).
Proof.
  intros Hk. replace (MAX_RETRIES - k) with (S (MAX_RETRIES - S k)) by lia.
  done.
Qed.

Lemma started_settled plugins :
  length (tasks (started plugins)) = length plugins
  ∧ tasks_settled unicode_alnum CDN_URL net disk plugins (started plugins).
Proof.
  split; [apply start_tasks_length|].
  intros i p Hp. rewrite (started_lookup _ _ _ Hp).
  eexists. split; [done|]. case_decide as Hd; cbn [slot_settled name_count].
  - unfold settled. by rewrite decide_True.
  - split; [done|]. split; [done|]. split; [unfold MAX_RETRIES; lia|].
    unfold next_count. by rewrite lookup_empty, Nat.sub_0_r.
Qed.

Lemma resume_settled plugins st m :
  (∀ i j b, processed net plugins i = Some b →
            processed net plugins j = Some b → i = j) →
  length (tasks st) = length plugins
  ∧ tasks_settled unicode_alnum CDN_URL net disk plugins st →
  length (tasks (resume_task st m)) = length plugins
  ∧ tasks_settled unicode_alnum CDN_URL net disk plugins (resume_task st m).
Proof.
  intros Hinj [Hlen Hst]. split; [by rewrite resume_length|].
  destruct (tasks st !! m) as [[r|pm k]|] eqn:Hm;
    [by rewrite resume_not_suspended by congruence| |
     by rewrite resume_not_suspended by congruence].
  assert (m < length (tasks st)) as Hlt by by eapply lookup_lt_Some.
  destruct (lookup_lt_is_Some_2 plugins m) as [pm' Hpm]; [lia|].
  destruct (Hst m pm' Hpm) as (tm & Htm & Hslot).
  rewrite Hm in Htm. injection Htm as <-.
  destruct Hslot as (Heq & Hdm & Hk & Halone). subst pm'.
  rewrite (seq_attempts k Hk) in Halone. cbn [alone] in Halone.
  (* The other tasks, when the counter of task [m] moves. *)
  assert (∀ i p t,
            i ≠ m → plugins !! i = Some p → tasks st !! i = Some t →
            slot_settled unicode_alnum CDN_URL net disk plugins st i p t →
            is_Some (net (url pm) k) →
            ∀ ws ts,
              slot_settled unicode_alnum CDN_URL net disk plugins
                {| name_count :=
                     <[display_name pm :=
                         next_count (name_count st) (display_name pm)]>
                       (name_count st);
                   js_writes := ws; tasks := ts |} i p t) as Hother.
  { intros i p t Hne Hp Ht Hslot Hresp ws ts.
    destruct t as [r|q kq]; [exact Hslot|].
    destruct Hslot as (-> & Hd & Hkq & Hal). cbn [slot_settled name_count].
    split; [done|]. split; [done|]. split; [done|]. rewrite <- Hal.
    destruct (decide (display_name pm = display_name p)) as [Hb|Hb].
    2:{ by rewrite next_count_insert_ne. }
    destruct (first_response net (url p)) as [text|] eqn:Hfirst.
    - exfalso. apply Hne. apply (Hinj i m (display_name p)).
      + unfold processed. rewrite Hp. cbn.
        by rewrite decide_False, Hfirst.
      + unfold processed. rewrite Hpm. cbn. rewrite decide_False by done.
        assert (is_Some (first_response net (url pm))) as [t' ->].
        { apply first_response_Some. eauto. }
        cbn. by rewrite Hb.
    - rewrite first_response_None in Hfirst.
      rewrite !alone_unanswered; [done|..].
      + intros j Hj%elem_of_seq. apply Hfirst. lia.
      + intros j Hj%elem_of_seq. apply Hfirst.
        unfold MAX_RETRIES in *. lia. }
  rewrite (resume_suspended _ _ _ _ Hm). cbn zeta.
  intros i p Hp. destruct (Hst i p Hp) as (t & Ht & Hslot).
  destruct (decide (i = m)) as [->|Hne].
  - assert (p = pm) as -> by congruence.
    destruct (net (url pm) k) as [text|] eqn:Hnet;
      [destruct (disk (url pm) k) eqn:Hdisk|].
    + eexists. split; [cbn [tasks]; by apply list_lookup_insert_eq|].
      cbn [slot_settled]. unfold settled. rewrite decide_False by done.
      by rewrite <- Halone.
    + eexists. split; [cbn [tasks]; by apply list_lookup_insert_eq|].
      destruct (on_exception_cases pm k) as [[Hk2 ->]|[Hk2 ->]];
        cbn [slot_settled name_count].
      * unfold settled. rewrite decide_False by done. rewrite <- Halone.
        rewrite Hk2. done.
      * split; [done|]. split; [done|].
        split; [unfold MAX_RETRIES in *; lia|].
        rewrite next_count_insert. by replace (k + 1) with (S k) by lia.
    + eexists. split; [cbn [tasks]; by apply list_lookup_insert_eq|].
      destruct (on_exception_cases pm k) as [[Hk2 ->]|[Hk2 ->]];
        cbn [slot_settled name_count].
      * unfold settled. rewrite decide_False by done. rewrite <- Halone.
        rewrite Hk2. done.
      * split; [done|]. split; [done|].
        split; [unfold MAX_RETRIES in *; lia|].
        by replace (k + 1) with (S k) by lia.
  - exists t.
    destruct (net (url pm) k) as [text|] eqn:Hnet;
      [destruct (disk (url pm) k) eqn:Hdisk|].
    + split; [cbn [tasks]; by rewrite list_lookup_insert_ne|].
      by apply (Hother i p t).
    + split; [cbn [tasks]; by rewrite list_lookup_insert_ne|].
      by apply (Hother i p t).
    + split; [cbn [tasks]; by rewrite list_lookup_insert_ne|].
      by destruct t.
Qed.

(** Without a collision, the result of a descriptor is [settled]. *)
Lemma fetch_results_settled order plugins i p :
  (∀ i j b, processed net plugins i = Some b →
            processed net plugins j = Some b → i = j) →
  complete order (length plugins) →
  plugins !! i = Some p →
  results_of order plugins !! i
  = Some (settled unicode_alnum CDN_URL net disk plugins i p).
Proof.
  intros Hinj Hc Hp.
  assert (length (tasks (run_of order plugins)) = length plugins
          ∧ tasks_settled unicode_alnum CDN_URL net disk plugins
              (run_of order plugins)) as [_ Hst].
  { unfold fetch_run.
    apply (run_tasks_invariant
             (λ st, length (tasks st) = length plugins
                    ∧ tasks_settled unicode_alnum CDN_URL net disk plugins st)).
    - intros st m. by apply resume_settled.
    - apply started_settled. }
  destruct (Hst i p Hp) as (t & Ht & Hslot).
  destruct (fetch_run_returns order plugins i Hc) as [r Hr];
    [by eapply lookup_lt_Some|].
  rewrite Hr in Ht. injection Ht as <-. cbn in Hslot. subst r.
  by apply fetch_results_lookup.
Qed.

End FetchFacts.

(** ** What [fetch_plugins] returns and writes *)

Lemma slot_ok_fields unicode_alnum CDN_URL net disk plugins st i p
    success new_plugin original_plugin :
  slot_ok unicode_alnum CDN_URL net disk plugins st i p
    (Finished (success, new_plugin, original_plugin)) →
  extra new_plugin = extra p
  ∧ extra original_plugin = extra p
  ∧ url original_plugin = url p
  ∧ name new_plugin = name original_plugin
  ∧ (success = false → new_plugin = p ∧ original_plugin = p).
Proof.
  destruct success; cbn.
  - intros (_ & retry & text & n & c & _ & _ & _ & _ & _ & -> & -> & _).
    by repeat split.
  - intros (-> & -> & _). by repeat split.
Qed.

(** The result of a success: the name of the two records, the rewritten
    URL, and the payload written. *)
Lemma slot_ok_success unicode_alnum CDN_URL net disk plugins st i p
    new_plugin original_plugin :
  slot_ok unicode_alnum CDN_URL net disk plugins st i p
    (Finished (true, new_plugin, original_plugin)) →
  ∃ retry text n,
    retry < MAX_RETRIES
    ∧ net (url p) retry = Some text ∧ disk (url p) retry = true
    ∧ name new_plugin = Some (suffixed (display_name p) n)
    ∧ name original_plugin = Some (suffixed (display_name p) n)
    ∧ url new_plugin =
        mirror_url CDN_URL
          (filename_of unicode_alnum (suffixed (display_name p) n))
    ∧ url original_plugin = url p
    ∧ WriteJs (filename_of unicode_alnum (suffixed (display_name p) n)) text
        ∈ js_writes st.
Proof.
  intros (_ & retry & text & n & c & Hlt & Hnet & Hdisk & _ & _ & -> & ->
          & Hin).
  exists retry, text, n. by repeat split.
Qed.

Lemma fetch_results_duplicate unicode_alnum CDN_URL net disk order plugins
    j q :
  complete order (length plugins) →
  plugins !! j = Some q →
  duplicate plugins j q →
  fetch_results unicode_alnum CDN_URL net disk order plugins !! j
  = Some (false, q, q).
Proof.
  intros Hc Hq Hd.
  destruct (fetch_results_slot unicode_alnum CDN_URL net disk order plugins
              j q Hc Hq) as ([[[] new] orig] & Hr & Hok).
  - by destruct Hok as [Hnd _].
  - destruct Hok as (-> & -> & _). done.
Qed.

Lemma fetch_plugins_original_length unicode_alnum CDN_URL net disk finish
    plugins :
  length (fetch_plugins unicode_alnum CDN_URL net disk finish plugins).2
  = length plugins.
Proof.
  unfold fetch_plugins, fetch_plugins_in. rewrite split_results_eq. cbn.
  rewrite length_fmap. apply fetch_results_length, completion_order_complete.
Qed.

Lemma fetch_writes_count unicode_alnum CDN_URL net disk finish plugins :
  length (fetch_writes unicode_alnum CDN_URL net disk finish plugins)
  = length (fetch_plugins unicode_alnum CDN_URL net disk finish plugins).1.
Proof.
  unfold fetch_writes, fetch_plugins, fetch_plugins_in.
  rewrite split_results_eq. cbn [fst app]. rewrite length_fmap.
  rewrite fetch_run_files_count, <- fetch_results_tasks.
  - apply filter_succeeded_finished.
  - apply completion_order_complete.
Qed.

Lemma fetch_writes_named unicode_alnum CDN_URL net disk finish plugins :
  Forall (λ e, ∃ plugin_name text,
            e = WriteJs (filename_of unicode_alnum plugin_name) text)
    (fetch_writes unicode_alnum CDN_URL net disk finish plugins).
Proof. apply fetch_run_named. Qed.

Lemma fetch_writes_js unicode_alnum CDN_URL net disk finish plugins :
  Forall (λ e, writes_js e = true)
    (fetch_writes unicode_alnum CDN_URL net disk finish plugins).
Proof.
  eapply Forall_impl; [apply fetch_writes_named|].
  by intros e (plugin_name & text & ->).
Qed.

Lemma two_in_two {A} (x y : A) (l : list A) :
  x ≠ y → x ∈ l → y ∈ l → length l = 2 → l = [x; y] ∨ l = [y; x].
Proof.
  intros Hne Hx Hy Hlen. destruct l as [|a [|b [|c l]]]; try done.
  rewrite !elem_of_cons, elem_of_nil in Hx, Hy.
  destruct Hx as [->|[->|[]]], Hy as [->|[->|[]]]; try done; eauto.
Qed.

(** ** [collect_plugins] *)

Lemma fetch_sub_loop_logs sub_net source retries :
  Forall (λ e, is_log e = true) (fetch_sub_loop sub_net source retries).2.
Proof.
  induction retries as [|retry rest IH]; cbn; [constructor|].
  destruct (sub_net source retry); [|constructor].
  destruct (retry =? _); [cbn; by repeat constructor|].
  destruct (fetch_sub_loop sub_net source rest) as [plugins log].
  cbn in *. by constructor.
Qed.

Lemma fetch_sub_plugins_logs sub_net source :
  Forall (λ e, is_log e = true) (fetch_sub_plugins sub_net source).2.
Proof. apply fetch_sub_loop_logs. Qed.

Lemma collect_sources_cons sub_net s rest all_plugins :
  collect_sources sub_net (s :: rest) all_plugins =
    let '(plugins, log) := fetch_sub_plugins sub_net s in
    match plugins with
    | [] =>
        let '(all_plugins, log') := collect_sources sub_net rest all_plugins in
        (all_plugins, log ++ log')
    | _ :: _ =>
        let '(all_plugins, log') :=
          collect_sources sub_net rest (all_plugins ++ plugins) in
        (all_plugins,
         log ++ Log Info (SourceGave s (length plugins)) :: log')
    end.
Proof. reflexivity. Qed.

Lemma collect_sources_logs sub_net sources all_plugins :
  Forall (λ e, is_log e = true)
    (collect_sources sub_net sources all_plugins).2.
Proof.
  revert all_plugins.
  induction sources as [|s rest IH]; intros all_plugins; [constructor|].
  rewrite collect_sources_cons.
  pose proof (fetch_sub_plugins_logs sub_net s) as Hs.
  destruct (fetch_sub_plugins sub_net s) as [[|q qs] log].
  - specialize (IH all_plugins).
    destruct (collect_sources sub_net rest all_plugins) as [a l].
    by apply Forall_app.
  - specialize (IH (all_plugins ++ q :: qs)).
    destruct (collect_sources sub_net rest (all_plugins ++ q :: qs)) as [a l].
    apply Forall_app. split; [done|]. by constructor.
Qed.

Lemma collect_plugins_logs sub_net origins :
  Forall (λ e, is_log e = true) (collect_plugins sub_net origins).2.
Proof.
  unfold collect_plugins.
  destruct (default [] (sources origins)) as [|s ss].
  - destruct (default [] (singles origins)); [constructor|].
    by repeat constructor.
  - pose proof (collect_sources_logs sub_net (s :: ss) []) as Hs.
    destruct (collect_sources sub_net (s :: ss) []) as [a l].
    destruct (default [] (singles origins)); cbn.
    + by constructor.
    + constructor; [done|]. apply Forall_app. split; [done|].
      by repeat constructor.
Qed.

Lemma filter_logs (log : list event) :
  Forall (λ e, is_log e = true) log → List.filter on_disk log = [].
Proof.
  induction 1 as [|e l He _ IH]; [done|].
  cbn. unfold on_disk at 1. by rewrite He.
Qed.

Lemma collect_plugins_fst sub_net origins :
  (collect_plugins sub_net origins).1 =
    (collect_sources sub_net (default [] (sources origins)) []).1
    ++ default [] (singles origins).
Proof.
  unfold collect_plugins.
  destruct (default [] (sources origins)) as [|s ss].
  - by destruct (default [] (singles origins)).
  - destruct (collect_sources sub_net (s :: ss) []) as [a l].
    destruct (default [] (singles origins)); cbn; by rewrite ?app_nil_r.
Qed.

Lemma collect_sources_concat sub_net sources all_plugins :
  (collect_sources sub_net sources all_plugins).1 =
    all_plugins
    ++ concat ((λ s, (fetch_sub_plugins sub_net s).1) <$> sources).
Proof.
  revert all_plugins.
  induction sources as [|s rest IH]; intros all_plugins.
  - cbn. by rewrite app_nil_r.
  - rewrite collect_sources_cons. cbn [fmap list_fmap concat].
    destruct (fetch_sub_plugins sub_net s) as [[|q qs] log]; cbn [fst].
    + specialize (IH all_plugins).
      destruct (collect_sources sub_net rest all_plugins). exact IH.
    + specialize (IH (all_plugins ++ q :: qs)).
      destruct (collect_sources sub_net rest (all_plugins ++ q :: qs)).
      cbn [fst] in *. by rewrite IH, <- app_assoc.
Qed.

(** ** The effects of [main] *)

Lemma reset_js_dir_events (w : world) :
  Forall (λ e, writes_manifest e = false ∧ writes_js e = false)
    (reset_js_dir w).2.
Proof.
  unfold reset_js_dir.
  destruct (js_dir_exists w), (reset w); cbn; by repeat constructor.
Qed.

Lemma logs_write_nothing (log : list event) :
  Forall (λ e, is_log e = true) log →
  Forall (λ e, writes_manifest e = false ∧ writes_js e = false) log.
Proof. intros H. eapply Forall_impl; [exact H|]. by intros []. Qed.

Lemma load_origins_logs file :
  Forall (λ e, is_log e = true) (load_origins file).2.
Proof. destruct file; cbn; by repeat constructor. Qed.

(** [main] up to the call of [fetch_plugins]. *)
Lemma main_unfold unicode_alnum CDN_URL (w : world) :
  ∃ header,
    Forall (λ e, is_log e = true) header
    ∧ main unicode_alnum CDN_URL w =
        header ++ (reset_js_dir w).2
        ++ if (reset_js_dir w).1
           then
             (load_origins (origins_file w)).2
             ++ if origins_empty (load_origins (origins_file w)).1
                then []
                else
                  (collect_plugins (sub_net w)
                     (load_origins (origins_file w)).1).2
                  ++ process_and_save unicode_alnum CDN_URL w
                       (collect_plugins (sub_net w)
                          (load_origins (origins_file w)).1).1
           else [].
Proof.
  exists ([Log Info Starting; Log Info (CdnSetting (USE_CDN CDN_URL))]
          ++ (if USE_CDN CDN_URL then [Log Info (CdnAddress CDN_URL)] else [])).
  split.
  - destruct (USE_CDN CDN_URL); by repeat constructor.
  - unfold main. rewrite <- app_assoc. do 2 f_equal.
    destruct (reset_js_dir w) as [ok log]. cbn [fst snd]. f_equal.
    destruct ok; [|done].
    destruct (load_origins (origins_file w)) as [o l1]. cbn [fst snd].
    f_equal. destruct (origins_empty o); [done|].
    by destruct (collect_plugins (sub_net w) o).
Qed.

Lemma fetch_sub_loop_not_final sub_net source retries :
  Forall (λ e, final e = false) (fetch_sub_loop sub_net source retries).2.
Proof.
  induction retries as [|retry rest IH]; cbn; [constructor|].
  destruct (sub_net source retry); [|constructor].
  destruct (retry =? _); [cbn; by repeat constructor|].
  destruct (fetch_sub_loop sub_net source rest) as [plugins log].
  cbn in *. by constructor.
Qed.

Lemma collect_sources_not_final sub_net sources all_plugins :
  Forall (λ e, final e = false)
    (collect_sources sub_net sources all_plugins).2.
Proof.
  revert all_plugins.
  induction sources as [|s rest IH]; intros all_plugins; [constructor|].
  rewrite collect_sources_cons.
  pose proof (fetch_sub_loop_not_final sub_net s (seq 0 MAX_RETRIES)) as Hs.
  fold (fetch_sub_plugins sub_net s) in Hs.
  destruct (fetch_sub_plugins sub_net s) as [[|q qs] log].
  - specialize (IH all_plugins).
    destruct (collect_sources sub_net rest all_plugins) as [a l].
    by apply Forall_app.
  - specialize (IH (all_plugins ++ q :: qs)).
    destruct (collect_sources sub_net rest (all_plugins ++ q :: qs)) as [a l].
    apply Forall_app. split; [done|]. by constructor.
Qed.

Lemma collect_plugins_not_final sub_net origins :
  Forall (λ e, final e = false) (collect_plugins sub_net origins).2.
Proof.
  unfold collect_plugins.
  destruct (default [] (sources origins)) as [|s ss].
  - destruct (default [] (singles origins)); [constructor|].
    by repeat constructor.
  - pose proof (collect_sources_not_final sub_net (s :: ss) []) as Hs.
    destruct (collect_sources sub_net (s :: ss) []) as [a l].
    destruct (default [] (singles origins)); cbn.
    + by constructor.
    + constructor; [done|]. apply Forall_app. split; [done|].
      by repeat constructor.
Qed.

Lemma filter_none {A} (f : A → bool) (l : list A) :
  Forall (λ x, f x = false) l → List.filter f l = [].
Proof. induction 1 as [|x l Hx _ IH]; [done|]. cbn. by rewrite Hx. Qed.

Lemma reset_js_dir_not_final (w : world) :
  Forall (λ e, final e = false) (reset_js_dir w).2.
Proof.
  unfold reset_js_dir.
  destruct (js_dir_exists w), (reset w); cbn; by repeat constructor.
Qed.

(** The first log lines of [main]. *)
Lemma main_header unicode_alnum CDN_URL (w : world) :
  let header :=
    [Log Info Starting; Log Info (CdnSetting (USE_CDN CDN_URL))]
    ++ (if USE_CDN CDN_URL then [Log Info (CdnAddress CDN_URL)] else []) in
  main unicode_alnum CDN_URL w =
    header ++ (reset_js_dir w).2
    ++ if (reset_js_dir w).1
       then
         (load_origins (origins_file w)).2
         ++ if origins_empty (load_origins (origins_file w)).1
            then []
            else
              (collect_plugins (sub_net w)
                 (load_origins (origins_file w)).1).2
              ++ process_and_save unicode_alnum CDN_URL w
                   (collect_plugins (sub_net w)
                      (load_origins (origins_file w)).1).1
       else [].
Proof.
  cbn zeta. unfold main. rewrite <- app_assoc. do 2 f_equal.
  destruct (reset_js_dir w) as [ok log]. cbn [fst snd]. f_equal.
  destruct ok; [|done].
  destruct (load_origins (origins_file w)) as [o l1]. cbn [fst snd].
  f_equal. destruct (origins_empty o); [done|].
  by destruct (collect_plugins (sub_net w) o).
Qed.

(** What [main] reaches [fetch_plugins] with, if it does. *)
Lemma main_final unicode_alnum CDN_URL (w : world) :
  List.filter final (main unicode_alnum CDN_URL w) =
    if (reset_js_dir w).1
       && negb (origins_empty (load_origins (origins_file w)).1)
    then
      List.filter final
        (process_and_save unicode_alnum CDN_URL w
           (collect_plugins (sub_net w) (load_origins (origins_file w)).1).1)
    else [].
Proof.
  rewrite main_header. cbn zeta.
  match goal with
  | |- context [?h ++ (reset_js_dir w).2 ++ _] => set (header := h)
  end.
  rewrite !List.filter_app.
  rewrite (filter_none final header),
    (filter_none final _ (reset_js_dir_not_final w)).
  2:{ subst header. destruct (USE_CDN CDN_URL); by repeat constructor. }
  cbn [app]. destruct (reset_js_dir w).1; [|done]. cbn [andb].
  rewrite List.filter_app, (filter_none final (load_origins _).2).
  2:{ destruct (origins_file w); cbn; by repeat constructor. }
  cbn [app]. destruct (origins_empty _); [done|]. cbn [negb].
  by rewrite List.filter_app,
    (filter_none final _ (collect_plugins_not_final _ _)).
Qed.

Lemma fetch_plugins_nil unicode_alnum CDN_URL net disk finish :
  fetch_plugins unicode_alnum CDN_URL net disk finish [] = ([], []).
Proof. reflexivity. Qed.

Lemma process_and_save_final unicode_alnum CDN_URL (w : world) all_plugins :
  List.filter final (process_and_save unicode_alnum CDN_URL w all_plugins) =
    let out :=
      fetch_plugins unicode_alnum CDN_URL (net w) (disk w) (finish w)
        all_plugins in
    match out.1 with
    | [] => []
    | _ :: _ =>
        (if writable w DIST_JSON_PATH
         then [WriteManifest DIST_JSON_PATH VERSION out.1] else [])
        ++ (if writable w PLUGINS_JSON_PATH
            then [WriteManifest PLUGINS_JSON_PATH VERSION out.2] else [])
        ++ (if writable w DIST_JSON_PATH && writable w PLUGINS_JSON_PATH
            then [Log Success (Done (length out.1))] else [])
    end.
Proof.
  cbn zeta. unfold process_and_save.
  destruct all_plugins as [|q qs]; [by rewrite fetch_plugins_nil|].
  pose proof (fetch_writes_js unicode_alnum CDN_URL (net w) (disk w)
                (finish w) (q :: qs)) as Hjs.
  assert (List.filter final
            (fetch_writes unicode_alnum CDN_URL (net w) (disk w) (finish w)
               (q :: qs))
          = []) as Hw.
  { apply filter_none. eapply Forall_impl; [exact Hjs|]. by intros []. }
  destruct (fetch_plugins unicode_alnum CDN_URL (net w) (disk w) (finish w)
              (q :: qs)) as [[|v valid] original]; cbn [fst snd].
  - cbn [List.filter final writes_manifest is_done orb].
    by rewrite List.filter_app, Hw.
  - unfold save_plugin_list.
    destruct (writable w DIST_JSON_PATH), (writable w PLUGINS_JSON_PATH);
      cbn [List.filter final writes_manifest is_done orb];
      rewrite List.filter_app, Hw; reflexivity.
Qed.

Lemma main_final_events unicode_alnum CDN_URL (w : world) (e : event) :
  e ∈ main unicode_alnum CDN_URL w → final e = true →
  let out :=
    fetch_plugins unicode_alnum CDN_URL (net w) (disk w) (finish w)
      (collect_plugins (sub_net w) (load_origins (origins_file w)).1).1 in
  (reset_js_dir w).1 = true
  ∧ origins_empty (load_origins (origins_file w)).1 = false
  ∧ out.1 ≠ []
  ∧ e ∈ (if writable w DIST_JSON_PATH
         then [WriteManifest DIST_JSON_PATH VERSION out.1] else [])
        ++ (if writable w PLUGINS_JSON_PATH
            then [WriteManifest PLUGINS_JSON_PATH VERSION out.2] else [])
        ++ (if writable w DIST_JSON_PATH && writable w PLUGINS_JSON_PATH
            then [Log Success (Done (length out.1))] else []).
Proof.
  intros He Hf out.
  assert (e ∈ List.filter final (main unicode_alnum CDN_URL w)) as Hin.
  { apply list_elem_of_In, filter_In. split; [by apply list_elem_of_In|done]. }
  rewrite main_final in Hin.
  destruct (reset_js_dir w).1; [|by apply elem_of_nil in Hin].
  destruct (origins_empty _); [by apply elem_of_nil in Hin|].
  cbn [andb negb] in Hin. rewrite process_and_save_final in Hin.
  cbn zeta in Hin. fold out in Hin.
  destruct out.1 as [|v valid] eqn:Hv; [by apply elem_of_nil in Hin|].
  by repeat split.
Qed.

Lemma main_final_complete unicode_alnum CDN_URL (w : world) (e : event) :
  e ∈ main unicode_alnum CDN_URL w → final e = true →
  writable w DIST_JSON_PATH = true → writable w PLUGINS_JSON_PATH = true →
  ∃ valid original n,
    List.filter final (main unicode_alnum CDN_URL w) =
      [WriteManifest DIST_JSON_PATH VERSION valid;
       WriteManifest PLUGINS_JSON_PATH VERSION original;
       Log Success (Done n)].
Proof.
  intros He Hf Hd Hp.
  destruct (main_final_events unicode_alnum CDN_URL w e He Hf)
    as (Hr & Ho & Hne & _).
  rewrite main_final, Hr, Ho, process_and_save_final. cbn zeta.
  destruct (fetch_plugins _ _ _ _ _ _).1 as [|v valid]; [done|].
  rewrite Hd, Hp. cbn. by eexists _, _, _.
Qed.

Lemma final_in_main unicode_alnum CDN_URL (w : world) (e : event) :
  e ∈ List.filter final (main unicode_alnum CDN_URL w) →
  e ∈ main unicode_alnum CDN_URL w.
Proof. rewrite !list_elem_of_In, filter_In. tauto. Qed.

Lemma main_js unicode_alnum CDN_URL (w : world) :
  List.filter writes_js (main unicode_alnum CDN_URL w) =
    if (reset_js_dir w).1
       && negb (origins_empty (load_origins (origins_file w)).1)
    then
      fetch_writes unicode_alnum CDN_URL (net w) (disk w) (finish w)
        (collect_plugins (sub_net w) (load_origins (origins_file w)).1).1
    else [].
Proof.
  assert (∀ log, Forall (λ e, is_log e = true) log →
                 List.filter writes_js log = []) as Hlogs.
  { intros log H. apply filter_none.
    eapply Forall_impl; [exact H|]. by intros []. }
  destruct (main_unfold unicode_alnum CDN_URL w) as (header & Hh & ->).
  rewrite !List.filter_app, (Hlogs header Hh).
  rewrite (filter_none writes_js (reset_js_dir w).2).
  2:{ eapply Forall_impl; [apply reset_js_dir_events|]. by intros e [_ ?]. }
  cbn [app]. destruct (reset_js_dir w).1; [|done]. cbn [andb].
  rewrite List.filter_app, (Hlogs _ (load_origins_logs _)). cbn [app].
  destruct (origins_empty _); [done|]. cbn [negb].
  rewrite List.filter_app, (Hlogs _ (collect_plugins_logs _ _)). cbn [app].
  unfold process_and_save.
  destruct (collect_plugins _ _).1 as [|q qs]; [done|].
  pose proof (fetch_writes_js unicode_alnum CDN_URL (net w) (disk w) (finish w)
                (q :: qs)) as Hjs.
  destruct (fetch_plugins _ _ _ _ _ _) as [[|v valid] original].
  - cbn [List.filter writes_js].
    rewrite List.filter_app, (filter_all _ _ Hjs). cbn. apply app_nil_r.
  - unfold save_plugin_list.
    destruct (writable w DIST_JSON_PATH), (writable w PLUGINS_JSON_PATH);
      cbn [List.filter writes_js];
      rewrite List.filter_app, (filter_all _ _ Hjs); cbn; apply app_nil_r.
Qed.

(** ** C1: the lengths of the two outputs *)

(** C1.  [fetch_plugins] returns one OriginalPlugin per input descriptor,
    in the order of the input and with the URL of the descriptor; the
    ProcessedPlugin list is no longer than the input, and it is as long
    exactly when every download succeeds and no two descriptors share a
    URL.  A download succeeds when one of the [MAX_RETRIES] attempts on the
    URL goes through the [try]: it gets a response and writes it.  A write
    that raises is a failed download, for the program (it is caught by the
    same [except], and logged as 下载失败) as for section 4.4 of the
    specification. *)
Theorem fetch_plugins_output_lengths unicode_alnum CDN_URL net disk finish
    (plugins : list plugin) :
  let '(valid_plugins, original_plugins) :=
    fetch_plugins unicode_alnum CDN_URL net disk finish plugins in
  length original_plugins = length plugins
  ∧ url <$> original_plugins = url <$> plugins
  ∧ length valid_plugins ≤ length plugins
  ∧ (length valid_plugins = length plugins
     ↔ (∀ p, p ∈ plugins →
          ∃ retry text,
            retry < MAX_RETRIES
            ∧ net (url p) retry = Some text ∧ disk (url p) retry = true)
       ∧ NoDup (url <$> plugins)).
Proof.
  unfold fetch_plugins, fetch_plugins_in. rewrite split_results_eq. cbn.
  pose proof (completion_order_complete finish (length plugins)) as Hc.
  set (order := completion_order finish (length plugins)) in *.
  set (rs := fetch_results unicode_alnum CDN_URL net disk order plugins).
  assert (length rs = length plugins) as Hlen
    by by apply fetch_results_length.
  rewrite !length_fmap.
  destruct (filter_length_all (λ r : result, r.1.1) rs) as [Hle Hall].
  split; [exact Hlen|]. split.
  { apply list_eq. intros i. rewrite !list_lookup_fmap.
    destruct (plugins !! i) as [p|] eqn:Hp.
    - destruct (fetch_results_slot unicode_alnum CDN_URL net disk order
                  plugins i p Hc Hp) as ([[s new] orig] & Hr & Hok).
      fold rs in Hr. rewrite Hr. cbn.
      apply slot_ok_fields in Hok as (_ & _ & Hurl & _). by rewrite Hurl.
    - apply lookup_ge_None_1 in Hp. rewrite <- Hlen in Hp.
      by rewrite (lookup_ge_None_2 rs i Hp). }
  split; [by etrans; [exact Hle|rewrite Hlen]|].
  rewrite <- Hlen. etrans; [exact Hall|]. rewrite NoDup_urls.
  split.
  - intros Hs.
    assert (∀ i p, plugins !! i = Some p →
              ¬ duplicate plugins i p
              ∧ ∃ retry, retry < MAX_RETRIES
                         ∧ stored net disk (url p) retry = true) as Hok.
    { intros i p Hp.
      destruct (fetch_results_slot unicode_alnum CDN_URL net disk order
                  plugins i p Hc Hp) as (r & Hr & _).
      apply (fetch_results_flag unicode_alnum CDN_URL net disk order plugins
               i p r Hc Hp Hr).
      apply Hs. by eapply list_elem_of_lookup_2. }
    split.
    + intros p (i & Hi)%list_elem_of_lookup.
      destruct (Hok i p Hi) as (_ & retry & Hlt & Hst).
      apply stored_true in Hst as (text & Hnet & Hdisk). eauto.
    + intros i p Hi. by apply Hok.
  - intros [Hnet Hnd] r (i & Hi)%list_elem_of_lookup.
    destruct (lookup_lt_is_Some_2 plugins i) as [p Hp].
    { rewrite <- Hlen. by eapply lookup_lt_Some. }
    apply (fetch_results_flag unicode_alnum CDN_URL net disk order plugins
             i p r Hc Hp Hi).
    split; [by apply Hnd|].
    destruct (Hnet p) as (retry & text & Hlt & Hn & Hd);
      [by eapply list_elem_of_lookup_2|].
    exists retry. split; [done|]. apply stored_true. eauto.
Qed.

(** ** C2: descriptors that share a URL *)

(** C2.  Among the descriptors with a given URL, exactly one (the first of
    the input) starts a download; every other one returns at once with
    [(False, plugin, plugin.copy())]: its result is a failure, so that it
    adds nothing to the ProcessedPlugin list, and its OriginalPlugin record
    is the descriptor as it was given, its name untouched. *)
Theorem shared_url_processed_once unicode_alnum CDN_URL net disk finish
    (plugins : list plugin) (u : str) :
  u ∈ url <$> plugins →
  let results :=
    fetch_results unicode_alnum CDN_URL net disk
      (completion_order finish (length plugins)) plugins in
  let '(valid_plugins, original_plugins) :=
    fetch_plugins unicode_alnum CDN_URL net disk finish plugins in
  valid_plugins =
    ((λ r : result, r.1.2) <$> List.filter (λ r : result, r.1.1) results)
  ∧ ∃ i p,
      plugins !! i = Some p ∧ url p = u
      ∧ start_tasks ∅ plugins !! i = Some (Suspended p 0)
      ∧ ∀ j q, plugins !! j = Some q → url q = u → j ≠ i →
          start_tasks ∅ plugins !! j = Some (Finished (false, q, q))
          ∧ results !! j = Some (false, q, q)
          ∧ original_plugins !! j = Some q.
Proof.
  intros Hu. unfold fetch_plugins, fetch_plugins_in.
  rewrite split_results_eq. cbn. split; [done|].
  destruct (first_with_url plugins u Hu) as (i & p & Hi & Hp & Hfirst & Hdup).
  exists i, p. split; [done|]. split; [done|]. split.
  - rewrite (start_tasks_empty_lookup _ _ _ Hi). by rewrite decide_False.
  - intros j q Hj Hq Hne. specialize (Hdup j q Hj Hq Hne).
    pose proof (fetch_results_duplicate unicode_alnum CDN_URL net disk
                  (completion_order finish (length plugins)) plugins j q
                  (completion_order_complete finish (length plugins))
                  Hj Hdup) as Hr.
    split; [|split].
    + rewrite (start_tasks_empty_lookup _ _ _ Hj). by rewrite decide_True.
    + exact Hr.
    + rewrite list_lookup_fmap. exact (f_equal (fmap snd) Hr).
Qed.

(** ** C3: names that collide *)

(** C3.  [name_count] is updated before [write_text], in the same [try].
    When the write raises, the attempt fails with the counter already
    moved, and the next attempt of the same task moves it again.  A single
    descriptor named [Foo], whose first write raises and whose second
    attempt goes through, is the first and only occurrence of its display
    name, and the program names it [Foo_1], in both records, and writes
    [Foo_1.js]; the claim says [Foo], which is the name that the same
    descriptor gets when its first write goes through. *)
Theorem retried_write_moves_suffix unicode_alnum CDN_URL finish :
  let foo := [named "Foo" "1.js"] in
  let out := fetch_plugins unicode_alnum CDN_URL net_ok disk_late finish foo in
  name <$> out.1 = [Some (lit "Foo_1")]
  ∧ name <$> out.2 = [Some (lit "Foo_1")]
  ∧ fetch_writes unicode_alnum CDN_URL net_ok disk_late finish foo
    = [WriteJs (lit "Foo_1.js") (http "1.js")]
  ∧ name <$> (fetch_plugins unicode_alnum CDN_URL net_ok disk_ok finish foo).1
    = [Some (lit "Foo")].
Proof.
  cbn zeta. unfold fetch_plugins, fetch_writes. cbn [length].
  rewrite completion_order_one.
  destruct CDN_URL; repeat split; reflexivity.
Qed.

(** ** C7: the rewritten URL *)

(** C7.  For a descriptor that is downloaded successfully (it is not a
    duplicate, and one of its attempts gets a response and writes it), with
    [filename] the name of the file written for it: the URL of its
    ProcessedPlugin is [js/filename] when [CDN_URL] is empty, and otherwise
    [CDN_URL] without its trailing slashes, one slash, and [filename]
    (which contains no slash).  The URL of its OriginalPlugin is that of
    the descriptor. *)
Theorem processed_url_rewritten unicode_alnum CDN_URL net disk finish
    (plugins : list plugin) i p :
  plugins !! i = Some p →
  ¬ duplicate plugins i p →
  (∃ retry text,
     retry < MAX_RETRIES
     ∧ net (url p) retry = Some text ∧ disk (url p) retry = true) →
  ∃ new_plugin original_plugin plugin_name text,
    fetch_results unicode_alnum CDN_URL net disk
      (completion_order finish (length plugins)) plugins !! i
    = Some (true, new_plugin, original_plugin)
    ∧ name new_plugin = Some plugin_name
    ∧ let filename := sanitize_filename unicode_alnum plugin_name ++ lit ".js" in
      WriteJs filename text
        ∈ fetch_writes unicode_alnum CDN_URL net disk finish plugins
      ∧ url new_plugin =
          match CDN_URL with
          | [] => lit "js/" ++ filename
          | _ :: _ => Py.rstrip 47%N CDN_URL ++ lit "/" ++ filename
          end
      ∧ last (Py.rstrip 47%N CDN_URL) ≠ Some 47%N
      ∧ (∃ k, CDN_URL = Py.rstrip 47%N CDN_URL ++ replicate k 47%N)
      ∧ (47%N ∉ filename)
      ∧ url original_plugin = url p.
Proof.
  intros Hp Hd (retry & text & Hlt & Hnet & Hdisk).
  destruct (fetch_results_success unicode_alnum CDN_URL net disk
              (completion_order finish (length plugins)) plugins i p)
    as (new_plugin & original_plugin & Hr & Hok); try done.
  { apply completion_order_complete. }
  { exists retry. split; [done|]. apply stored_true. eauto. }
  apply slot_ok_success in Hok
    as (retry' & text' & n & _ & _ & _ & Hname & _ & Hurl & Horig & Hin).
  exists new_plugin, original_plugin, (suffixed (display_name p) n), text'.
  split; [exact Hr|]. split; [exact Hname|].
  split; [|split; [|split; [|split; [|split]]]].
  - exact Hin.
  - exact Hurl.
  - apply rstrip_last.
  - apply rstrip_suffix.
  - rewrite elem_of_app. intros [Hc|Hc].
    + by apply sanitize_filename_no_slash in Hc.
    + revert Hc. compute_done.
  - exact Horig.
Qed.

(** ** C10: descriptors without a name *)

(** C10, as amended.  For a descriptor without [name] that is not a
    duplicate and that is downloaded successfully (one of its attempts gets
    a response and writes it), the display name is the URL after the two
    substitutions; the resolved name is that display name, or that display
    name with a suffix [_n]; both output records carry it, and the file is
    written under its sanitized form. *)
Theorem nameless_plugin_named_by_url unicode_alnum CDN_URL net disk finish
    (plugins : list plugin) i p :
  plugins !! i = Some p →
  ¬ duplicate plugins i p →
  (∃ retry text,
     retry < MAX_RETRIES
     ∧ net (url p) retry = Some text ∧ disk (url p) retry = true) →
  name p = None →
  let b :=
    Py.replace (lit "QQ") (lit "T")
      (Py.replace [32593%N; 26131%N; 20113%N] (lit "W") (url p)) in
  ∃ new_plugin original_plugin text n,
    fetch_results unicode_alnum CDN_URL net disk
      (completion_order finish (length plugins)) plugins !! i
    = Some (true, new_plugin, original_plugin)
    ∧ let plugin_name :=
        match n with 0 => b | S _ => b ++ lit "_" ++ Py.str_of_nat n end in
      name new_plugin = Some plugin_name
      ∧ name original_plugin = Some plugin_name
      ∧ WriteJs (sanitize_filename unicode_alnum plugin_name ++ lit ".js") text
          ∈ fetch_writes unicode_alnum CDN_URL net disk finish plugins.
Proof.
  intros Hp Hd (retry & text & Hlt & Hnet & Hdisk) Hname.
  assert (display_name p =
            Py.replace (lit "QQ") (lit "T")
              (Py.replace [32593%N; 26131%N; 20113%N] (lit "W") (url p)))
    as <-.
  { unfold display_name. by rewrite Hname. }
  intros b.
  destruct (fetch_results_success unicode_alnum CDN_URL net disk
              (completion_order finish (length plugins)) plugins i p)
    as (new_plugin & original_plugin & Hr & Hok); try done.
  { apply completion_order_complete. }
  { exists retry. split; [done|]. apply stored_true. eauto. }
  apply slot_ok_success in Hok
    as (retry' & text' & n & _ & _ & _ & Hnew & Horig & _ & _ & Hin).
  exists new_plugin, original_plugin, text', n.
  split; [exact Hr|]. cbn zeta.
  assert (suffixed b n =
            match n with 0 => b | S _ => b ++ lit "_" ++ Py.str_of_nat n end)
    as <- by by destruct n.
  by repeat split.
Qed.

(** ** C6: a subscription source that gives nothing *)

Lemma fetch_sub_plugins_exhausted_fst sub_net (s : str) :
  exhausted sub_net s → (fetch_sub_plugins sub_net s).1 = [].
Proof.
  unfold exhausted, fetch_sub_plugins, MAX_RETRIES. intros Hall. cbn.
  by rewrite (Hall 0), (Hall 1), (Hall 2) by lia.
Qed.

Lemma fetch_sub_plugins_answers sub_net (s : str) data :
  answers sub_net s data → (fetch_sub_plugins sub_net s).1 = default [] data.
Proof.
  unfold answers, fetch_sub_plugins, MAX_RETRIES.
  intros (k & Hk & Hbefore & Hat). cbn.
  destruct k as [|[|[|k]]]; [| | |lia].
  - by rewrite Hat.
  - by rewrite (Hbefore 0), Hat by lia.
  - by rewrite (Hbefore 0), (Hbefore 1), Hat by lia.
Qed.

(** The payloads, the manifests and the final message of a run that reads
    its configuration. *)
Lemma main_effects unicode_alnum CDN_URL (w : world) (o : origins) :
  origins_file w = Some o →
  origins_empty o = false →
  let all_plugins := (collect_plugins (sub_net w) o).1 in
  let out :=
    fetch_plugins unicode_alnum CDN_URL (net w) (disk w) (finish w)
      all_plugins in
  List.filter writes_js (main unicode_alnum CDN_URL w) =
    (if (reset_js_dir w).1
     then fetch_writes unicode_alnum CDN_URL (net w) (disk w) (finish w)
            all_plugins
     else [])
  ∧ List.filter final (main unicode_alnum CDN_URL w) =
      if (reset_js_dir w).1
      then
        match out.1 with
        | [] => []
        | _ :: _ =>
            (if writable w DIST_JSON_PATH
             then [WriteManifest DIST_JSON_PATH VERSION out.1] else [])
            ++ (if writable w PLUGINS_JSON_PATH
                then [WriteManifest PLUGINS_JSON_PATH VERSION out.2] else [])
            ++ (if writable w DIST_JSON_PATH && writable w PLUGINS_JSON_PATH
                then [Log Success (Done (length out.1))] else [])
        end
      else [].
Proof.
  intros Ho Hne. cbn zeta. rewrite main_js, main_final, Ho.
  cbn [load_origins fst]. rewrite Hne. cbn [negb]. rewrite andb_true_r.
  destruct (reset_js_dir w).1; [|done].
  by rewrite process_and_save_final.
Qed.

(** C6.  When every attempt on a subscription source raises, or the first
    attempt that does not raise gives a JSON object without [plugins],
    [fetch_sub_plugins] returns the empty list.  The run goes on with the
    other sources and the singles: whatever the requests to the other
    sources give ([given]: nothing for a source whose attempts all raise,
    and otherwise the list under [plugins] in its first answer),
    [collect_plugins] returns these lists, in the order of the sources,
    followed by the singles; and [main], once [JS_DIR] is reset, writes
    the payloads and the manifests of [fetch_plugins] for these plugins. *)
Theorem failed_source_is_skipped source_net (s : str) :
  exhausted source_net s ∨ answers source_net s None →
  (fetch_sub_plugins source_net s).1 = []
  ∧ ∀ before after singles (given : str → list plugin),
      (∀ s', s' ∈ before ++ after →
         (exhausted source_net s' ∧ given s' = [])
         ∨ (∃ data, answers source_net s' data
                    ∧ given s' = default [] data)) →
      let remaining :=
        concat (given <$> before ++ after) ++ default [] singles in
      (collect_plugins source_net
         {| sources := Some (before ++ s :: after); singles := singles |}).1
      = remaining
      ∧ ∀ unicode_alnum CDN_URL exists_ reset_ net disk finish writable,
          let w :=
            World exists_ reset_
              (Some {| sources := Some (before ++ s :: after);
                       singles := singles |})
              source_net net disk finish writable in
          let out :=
            fetch_plugins unicode_alnum CDN_URL net disk finish remaining in
          List.filter writes_js (main unicode_alnum CDN_URL w) =
            (if (reset_js_dir w).1
             then fetch_writes unicode_alnum CDN_URL net disk finish remaining
             else [])
          ∧ List.filter final (main unicode_alnum CDN_URL w) =
              if (reset_js_dir w).1
              then
                match out.1 with
                | [] => []
                | _ :: _ =>
                    (if writable DIST_JSON_PATH
                     then [WriteManifest DIST_JSON_PATH VERSION out.1]
                     else [])
                    ++ (if writable PLUGINS_JSON_PATH
                        then [WriteManifest PLUGINS_JSON_PATH VERSION out.2]
                        else [])
                    ++ (if writable DIST_JSON_PATH
                           && writable PLUGINS_JSON_PATH
                        then [Log Success (Done (length out.1))] else [])
                end
              else [].
Proof.
  intros Hs.
  assert ((fetch_sub_plugins source_net s).1 = []) as Hnone.
  { destruct Hs as [Hs|Hs]; [by apply fetch_sub_plugins_exhausted_fst|].
    by rewrite (fetch_sub_plugins_answers _ _ _ Hs). }
  split; [exact Hnone|].
  intros before after singles_ given Hgiven remaining.
  assert ((collect_plugins source_net
             {| sources := Some (before ++ s :: after);
                singles := singles_ |}).1 = remaining) as Hcollect.
  { rewrite collect_plugins_fst, collect_sources_concat.
    cbn [sources singles default from_option id app]. subst remaining.
    f_equal.
    assert (∀ l : list str, (∀ s', s' ∈ l → s' ∈ before ++ after) →
              (λ s', (fetch_sub_plugins source_net s').1) <$> l = given <$> l)
      as Hext.
    { intros l Hl. apply Forall_fmap_ext, Forall_forall. intros s' Hin.
      destruct (Hgiven s' (Hl s' Hin)) as [[Hex ->]|(data & Hans & ->)].
      - by apply fetch_sub_plugins_exhausted_fst.
      - by apply fetch_sub_plugins_answers. }
    rewrite !fmap_app, fmap_cons, !concat_app, concat_cons, Hnone.
    cbn [app]. rewrite (Hext before), (Hext after); [done|..];
      intros s' Hin; apply elem_of_app; by eauto. }
  split; [exact Hcollect|].
  intros unicode_alnum CDN_URL exists_ reset_ net_ disk_ finish_ writable_
    w out.
  destruct (main_effects unicode_alnum CDN_URL w
              {| sources := Some (before ++ s :: after);
                 singles := singles_ |} eq_refl eq_refl) as [Hjs Hfinal].
  cbn zeta in Hjs, Hfinal. rewrite Hjs, Hfinal.
  subst w out. cbn [sub_net net disk finish writable]. by rewrite Hcollect.
Qed.

(** ** C8: an unreadable source configuration *)

(** C8.  When [origins.json] cannot be read, a run writes no manifest and
    no payload file, and [load_origins] logs the failure: [main] calls it
    once the reset of [JS_DIR] has gone through. *)
Theorem unreadable_origins_writes_nothing unicode_alnum CDN_URL (w : world) :
  origins_file w = None →
  Forall (λ e, writes_manifest e = false ∧ writes_js e = false)
    (main unicode_alnum CDN_URL w)
  ∧ ((reset_js_dir w).1 = true →
     Log Error OriginsUnreadable ∈ main unicode_alnum CDN_URL w).
Proof.
  intros Hfile.
  destruct (main_unfold unicode_alnum CDN_URL w) as (header & Hh & ->).
  rewrite Hfile. cbn [load_origins fst snd origins_empty sources singles].
  change (collect_plugins (sub_net w)
            {| sources := Some []; singles := Some [] |}) with
    (@nil plugin, @nil event).
  cbn [fst snd app process_and_save]. split.
  - apply Forall_app. split; [by apply logs_write_nothing|].
    apply Forall_app. split; [apply reset_js_dir_events|].
    destruct (reset_js_dir w).1; by repeat constructor.
  - intros ->. rewrite !elem_of_app. right. right. by left.
Qed.

(** ** C9: no valid plugin *)

(** C9.  When [fetch_plugins] returns no valid plugin, [main] writes no
    manifest, although [fetch_plugins] returned one OriginalPlugin per
    collected descriptor. *)
Theorem no_valid_plugin_no_manifest unicode_alnum CDN_URL (w : world) :
  let all_plugins :=
    (collect_plugins (sub_net w) (load_origins (origins_file w)).1).1 in
  (fetch_plugins unicode_alnum CDN_URL (net w) (disk w) (finish w)
     all_plugins).1 = [] →
  Forall (λ e, writes_manifest e = false) (main unicode_alnum CDN_URL w)
  ∧ length
      (fetch_plugins unicode_alnum CDN_URL (net w) (disk w) (finish w)
         all_plugins).2
    = length all_plugins.
Proof.
  intros all_plugins Hvalid. split; [|apply fetch_plugins_original_length].
  assert (∀ log, Forall (λ e, is_log e = true) log →
                 Forall (λ e, writes_manifest e = false) log) as Hlogs.
  { intros log H. eapply Forall_impl; [exact H|]. by intros []. }
  destruct (main_unfold unicode_alnum CDN_URL w) as (header & Hh & ->).
  apply Forall_app. split; [by apply Hlogs|].
  apply Forall_app. split.
  { eapply Forall_impl; [apply reset_js_dir_events|]. by intros e [? _]. }
  destruct (reset_js_dir w).1; [|constructor].
  apply Forall_app. split; [apply Hlogs, load_origins_logs|].
  destruct (origins_empty _); [constructor|].
  apply Forall_app. split; [apply Hlogs, collect_plugins_logs|].
  fold all_plugins. unfold process_and_save.
  destruct all_plugins as [|q qs] eqn:E; [by repeat constructor|].
  destruct (fetch_plugins _ _ _ _ _ _) as [valid original].
  cbn in Hvalid. subst valid. constructor; [done|].
  apply Forall_app. split; [|by repeat constructor].
  eapply Forall_impl; [apply fetch_writes_js|]. by intros [].
Qed.

(** ** C4 and C5: file names *)

(** C4.  A tab is neither alphanumeric, nor an ideograph, nor an underscore,
    nor a space; [sanitize_filename] keeps it, and does not turn it into an
    underscore either. *)
Theorem sanitize_filename_keeps_tab unicode_alnum :
  Py.isword unicode_alnum 9%N = false
  ∧ ((19968 <=? 9) && (9 <=? 40959))%N = false
  ∧ (9 =? 32)%N = false
  ∧ kept unicode_alnum 9%N = true
  ∧ sanitize_filename unicode_alnum [97%N; 9%N; 98%N] = [97%N; 9%N; 98%N].
Proof.
  assert (kept unicode_alnum 9%N = true) as Hkept.
  { unfold kept. apply orb_true_iff. by right. }
  repeat split; try reflexivity; exact Hkept.
Qed.

Example sanitize_filename_keeps_newline unicode_alnum :
  sanitize_filename unicode_alnum (lit "a" ++ [10%N] ++ lit "b c")
  = lit "a" ++ [10%N] ++ lit "b_c".
Proof. reflexivity. Qed.

Lemma space_and_underscore_apart :
  ∀ i j b,
    processed net_ok space_and_underscore i = Some b →
    processed net_ok space_and_underscore j = Some b → i = j.
Proof.
  intros [|[|i]] [|[|j]] b Hi Hj; try done; vm_compute in Hi, Hj; congruence.
Qed.

(** C5.  Two descriptors with different URLs and the different names [a b]
    and [a_b] are both processed, under those two names, and both write the
    file [a_b.js], whatever the order of completion. *)
Theorem distinct_plugins_same_file unicode_alnum CDN_URL finish :
  (name <$> (fetch_plugins unicode_alnum CDN_URL net_ok disk_ok finish
               space_and_underscore).1)
  = [Some (lit "a b"); Some (lit "a_b")]
  ∧ ∃ text1 text2,
      text1 ≠ text2
      ∧ fetch_writes unicode_alnum CDN_URL net_ok disk_ok finish
          space_and_underscore
        = [WriteJs (lit "a_b.js") text1; WriteJs (lit "a_b.js") text2].
Proof.
  pose proof (completion_order_complete finish 2) as Hc.
  pose proof (fetch_results_settled unicode_alnum CDN_URL net_ok disk_ok
                (completion_order finish 2) space_and_underscore 0 _
                space_and_underscore_apart Hc eq_refl) as H0.
  pose proof (fetch_results_settled unicode_alnum CDN_URL net_ok disk_ok
                (completion_order finish 2) space_and_underscore 1 _
                space_and_underscore_apart Hc eq_refl) as H1.
  pose proof (fetch_results_length unicode_alnum CDN_URL net_ok disk_ok
                (completion_order finish 2) space_and_underscore Hc) as Hlen.
  pose proof (fetch_writes_count unicode_alnum CDN_URL net_ok disk_ok finish
                space_and_underscore) as Hcount.
  assert (∀ i p new_plugin original_plugin plugin_name,
            space_and_underscore !! i = Some p →
            fetch_results unicode_alnum CDN_URL net_ok disk_ok
              (completion_order finish 2) space_and_underscore !! i
            = Some (true, new_plugin, original_plugin) →
            name new_plugin = Some plugin_name →
            WriteJs (filename_of unicode_alnum plugin_name) (url p)
              ∈ fetch_writes unicode_alnum CDN_URL net_ok disk_ok finish
                  space_and_underscore) as Hwrite.
  { intros i p new_plugin original_plugin plugin_name Hp Hr Hname.
    destruct (fetch_results_slot unicode_alnum CDN_URL net_ok disk_ok
                (completion_order finish 2) space_and_underscore i p Hc Hp)
      as (r & Hr' & Hok).
    rewrite Hr in Hr'. injection Hr' as <-.
    apply slot_ok_success in Hok
      as (retry & text & n & _ & Hnet & _ & Hnew & _ & _ & _ & Hin).
    injection Hnet as <-. rewrite Hname in Hnew. injection Hnew as ->.
    exact Hin. }
  pose proof (Hwrite 0 _ _ _ (lit "a b") eq_refl H0 eq_refl) as Hw0.
  pose proof (Hwrite 1 _ _ _ (lit "a_b") eq_refl H1 eq_refl) as Hw1.
  unfold fetch_plugins, fetch_plugins_in in *.
  change (length space_and_underscore) with 2 in *.
  destruct (fetch_results unicode_alnum CDN_URL net_ok disk_ok
              (completion_order finish 2) space_and_underscore)
    as [|r0 [|r1 [|r2 rs]]]; try discriminate Hlen.
  injection H0 as ->. injection H1 as ->.
  split; [by destruct CDN_URL|].
  change (filename_of unicode_alnum (lit "a b")) with (lit "a_b.js") in Hw0.
  change (filename_of unicode_alnum (lit "a_b")) with (lit "a_b.js") in Hw1.
  assert (length (fetch_writes unicode_alnum CDN_URL net_ok disk_ok finish
                    space_and_underscore) = 2) as Htwo.
  { rewrite Hcount. by destruct CDN_URL. }
  assert (WriteJs (lit "a_b.js") (http "1.js")
          ≠ WriteJs (lit "a_b.js") (http "2.js")) as Hne by discriminate.
  destruct (two_in_two _ _ _ Hne Hw0 Hw1 Htwo) as [->| ->];
    eexists _, _; (split; [|reflexivity]); discriminate.
Qed.

(** ** Examples and instances *)

(** Three plugins named [Foo], every write going through: in the order of
    completion, their resolved names are [Foo], [Foo_1] and [Foo_2]. *)
Example foo_thrice_in_order :
  name <$> (fetch_plugins ascii_table [] net_ok disk_ok in_order foo_thrice).1
  = [Some (lit "Foo"); Some (lit "Foo_1"); Some (lit "Foo_2")].
Proof. reflexivity. Qed.

Example foo_thrice_in_reverse :
  name <$> (fetch_plugins ascii_table [] net_ok disk_ok in_reverse foo_thrice).1
  = [Some (lit "Foo_2"); Some (lit "Foo_1"); Some (lit "Foo")].
Proof. reflexivity. Qed.

(** The scenario of the specification: one single named 网易云Test. *)
Example scenario_wtest :
  let p := {| url := lit "http://x/a.js";
              name := Some ([32593%N; 26131%N; 20113%N] ++ lit "Test");
              extra := [] |} in
  let net := λ _ _, Some (lit "console.log(1)") in
  fetch_plugins ascii_table [] net disk_ok in_order [p]
  = ([{| url := lit "js/WTest.js"; name := Some (lit "WTest"); extra := [] |}],
     [{| url := lit "http://x/a.js"; name := Some (lit "WTest");
         extra := [] |}])
  ∧ fetch_writes ascii_table [] net disk_ok in_order [p]
    = [WriteJs (lit "WTest.js") (lit "console.log(1)")].
Proof. split; reflexivity. Qed.

Example cdn_trailing_slash :
  (url <$> (fetch_plugins ascii_table (lit "https://cdn.x/p//") net_ok disk_ok
              in_order [named "Foo" "1.js"]).1)
  = [lit "https://cdn.x/p/Foo.js"].
Proof. reflexivity. Qed.

(** Three plugins named [Foo] whose first write raises: every failed
    attempt has moved the counter. *)
Example foo_thrice_disk_late :
  name <$> (fetch_plugins ascii_table [] net_ok disk_late in_order
              foo_thrice).1
  = [Some (lit "Foo_1"); Some (lit "Foo_3"); Some (lit "Foo_5")].
Proof. reflexivity. Qed.

(** A disk on which every write raises: every download fails, although
    every request is answered. *)
Example disk_full_no_plugin :
  fetch_plugins ascii_table [] net_ok disk_full in_order foo_thrice
  = ([], foo_thrice)
  ∧ fetch_writes ascii_table [] net_ok disk_full in_order foo_thrice = [].
Proof. split; reflexivity. Qed.

Lemma shared_url_processed_once_witness :
  http "1.js" ∈ url <$> same_url_twice
  ∧ let results :=
      fetch_results ascii_table [] net_ok disk_ok (completion_order in_order 2)
        same_url_twice in
    let '(valid_plugins, original_plugins) :=
      fetch_plugins ascii_table [] net_ok disk_ok in_order same_url_twice in
    valid_plugins =
      ((λ r : result, r.1.2) <$> List.filter (λ r : result, r.1.1) results)
    ∧ ∃ i p,
        same_url_twice !! i = Some p ∧ url p = http "1.js"
        ∧ start_tasks ∅ same_url_twice !! i = Some (Suspended p 0)
        ∧ ∀ j q, same_url_twice !! j = Some q → url q = http "1.js" → j ≠ i →
            start_tasks ∅ same_url_twice !! j = Some (Finished (false, q, q))
            ∧ results !! j = Some (false, q, q)
            ∧ original_plugins !! j = Some q.
Proof.
  assert (http "1.js" ∈ url <$> same_url_twice) as H by compute_done.
  split; [exact H|].
  exact (shared_url_processed_once ascii_table [] net_ok disk_ok in_order
           same_url_twice (http "1.js") H).
Defined.

Lemma failed_source_is_skipped_witness :
  (fetch_sub_plugins sub_net_one (http "bad.json")).1 = []
  ∧ (collect_plugins sub_net_one
       {| sources := Some ([http "good.json"] ++ http "bad.json" :: []);
          singles := Some [nameless] |}).1
    = [named "A" "1.js"; nameless].
Proof.
  destruct (failed_source_is_skipped sub_net_one (http "bad.json"))
    as [Hnone Hrun].
  - left. intros retry _. reflexivity.
  - split; [exact Hnone|].
    refine (proj1 (Hrun [http "good.json"] [] (Some [nameless])
                     (λ _, [named "A" "1.js"]) _)).
    intros s' Hin. apply list_elem_of_singleton in Hin as ->.
    right. exists (Some [named "A" "1.js"]). split; [|reflexivity].
    exists 1. split; [unfold MAX_RETRIES; lia|]. split; [|reflexivity].
    intros j Hj. by replace j with 0 by lia.
Defined.

Lemma processed_url_rewritten_witness :
  ∃ new_plugin original_plugin plugin_name text,
    fetch_results ascii_table (lit "https://cdn.x/p//") net_ok disk_ok
      (completion_order in_order 1) [named "Foo" "1.js"] !! 0
    = Some (true, new_plugin, original_plugin)
    ∧ name new_plugin = Some plugin_name
    ∧ WriteJs (sanitize_filename ascii_table plugin_name ++ lit ".js") text
        ∈ fetch_writes ascii_table (lit "https://cdn.x/p//") net_ok disk_ok
            in_order [named "Foo" "1.js"]
    ∧ url new_plugin =
        lit "https://cdn.x/p" ++ lit "/"
        ++ sanitize_filename ascii_table plugin_name ++ lit ".js"
    ∧ url original_plugin = http "1.js".
Proof.
  destruct (processed_url_rewritten ascii_table (lit "https://cdn.x/p//")
              net_ok disk_ok in_order [named "Foo" "1.js"] 0
              (named "Foo" "1.js") eq_refl)
    as (new_plugin & original_plugin & plugin_name & text
        & Hr & Hname & Hwrite & Hurl & _ & _ & _ & Horig).
  - compute_done.
  - exists 0, (http "1.js"). split; [unfold MAX_RETRIES; lia|]. by split.
  - exists new_plugin, original_plugin, plugin_name, text.
    repeat split; assumption.
Defined.

Lemma unreadable_origins_writes_nothing_witness :
  Forall (λ e, writes_manifest e = false ∧ writes_js e = false)
    (main ascii_table [] (world_of None net_ok))
  ∧ Log Error OriginsUnreadable ∈ main ascii_table [] (world_of None net_ok).
Proof.
  destruct (unreadable_origins_writes_nothing ascii_table []
              (world_of None net_ok) eq_refl) as [Hnone Hlog].
  split; [exact Hnone|]. exact (Hlog eq_refl).
Defined.

Lemma no_valid_plugin_no_manifest_witness :
  Forall (λ e, writes_manifest e = false)
    (main ascii_table []
       (world_of (Some {| sources := None; singles := Some [nameless] |})
          net_down))
  ∧ length
      (fetch_plugins ascii_table [] net_down disk_ok in_order [nameless]).2
    = 1.
Proof.
  exact (no_valid_plugin_no_manifest ascii_table []
           (world_of (Some {| sources := None; singles := Some [nameless] |})
              net_down) eq_refl).
Defined.

Lemma nameless_plugin_named_by_url_witness :
  ∃ new_plugin original_plugin text n,
    fetch_results ascii_table [] net_ok disk_ok (completion_order in_order 1)
      [nameless] !! 0
    = Some (true, new_plugin, original_plugin)
    ∧ let plugin_name :=
        match n with
        | 0 => lit "http://x/T.js"
        | S _ => lit "http://x/T.js" ++ lit "_" ++ Py.str_of_nat n
        end in
      name new_plugin = Some plugin_name
      ∧ name original_plugin = Some plugin_name
      ∧ WriteJs (sanitize_filename ascii_table plugin_name ++ lit ".js") text
          ∈ fetch_writes ascii_table [] net_ok disk_ok in_order [nameless].
Proof.
  refine (nameless_plugin_named_by_url ascii_table [] net_ok disk_ok in_order
            [nameless] 0 nameless eq_refl _ _ eq_refl).
  - compute_done.
  - exists 0, (http "QQ.js"). split; [unfold MAX_RETRIES; lia|]. by split.
Defined.

(** C10, as stated, fails for a descriptor without a name whose download
    fails: there is no ProcessedPlugin, and the OriginalPlugin is the
    descriptor itself, still without a name. *)
Lemma nameless_failed_download :
  [nameless] !! 0 = Some nameless
  ∧ name nameless = None
  ∧ ¬ duplicate [nameless] 0 nameless
  ∧ fetch_plugins ascii_table [] net_down disk_ok in_order [nameless]
    = ([], [nameless])
  ∧ name <$> (fetch_plugins ascii_table [] net_down disk_ok in_order
                [nameless]).2 = [None].
Proof.
  split; [reflexivity|]. split; [reflexivity|]. split; [compute_done|].
  split; reflexivity.
Qed.

(** * Further properties of the code *)

(** ** [sanitize_filename] *)

Lemma kept_underscore unicode_alnum : kept unicode_alnum 95%N = true.
Proof. reflexivity. Qed.

Lemma space_to_underscore_kept unicode_alnum (c : N) :
  kept unicode_alnum c = true →
  kept unicode_alnum (if (c =? 32)%N then 95%N else c) = true
  ∧ (if (c =? 32)%N then 95%N else c) ≠ 32%N.
Proof.
  intros Hk. destruct (N.eqb_spec c 32); [by split|by split].
Qed.

(** The characters of a sanitized name. *)
Lemma sanitize_filename_chars unicode_alnum (name : str) :
  Forall (λ c, kept unicode_alnum c = true ∧ c ≠ 32%N)
    (sanitize_filename unicode_alnum name).
Proof.
  rewrite sanitize_filename_unfold. cbn zeta.
  case_decide as E.
  - repeat constructor; done.
  - apply Forall_take, Forall_fmap, Forall_forall.
    intros c Hc. apply list_elem_of_In, filter_In in Hc as [_ Hk].
    by apply space_to_underscore_kept.
Qed.

Lemma fmap_no_space (l : str) :
  Forall (λ c, c ≠ 32%N) l →
  (λ c, if (c =? 32)%N then 95%N else c) <$> l = l.
Proof.
  induction 1 as [|c l Hc _ IH]; [done|]. cbn.
  destruct (N.eqb_spec c 32); [done|]. by rewrite IH.
Qed.

(** What [sanitize_filename] does to a name that needs no cleaning. *)
Lemma sanitize_filename_clean unicode_alnum (name : str) :
  Forall (λ c, kept unicode_alnum c = true ∧ c ≠ 32%N) name →
  name ≠ [] → length name ≤ 50 →
  sanitize_filename unicode_alnum name = name.
Proof.
  intros Hall Hne Hlen. rewrite sanitize_filename_unfold. cbn zeta.
  rewrite filter_all, fmap_no_space.
  - rewrite decide_False by done. by apply take_ge.
  - eapply Forall_impl; [exact Hall|]. by intros c [_ ?].
  - eapply Forall_impl; [exact Hall|]. by intros c [? _].
Qed.

(** X1.  Sanitizing twice is sanitizing once: a sanitized name is a fixed
    point, the fallback [plugin] included. *)
Theorem sanitize_filename_idempotent unicode_alnum (name : str) :
  sanitize_filename unicode_alnum (sanitize_filename unicode_alnum name)
  = sanitize_filename unicode_alnum name.
Proof.
  apply sanitize_filename_clean.
  - apply sanitize_filename_chars.
  - apply sanitize_filename_nonempty.
  - apply sanitize_filename_length.
Qed.

(** X2.  No sanitized name contains a space, a path separator, a dot or a NUL,
    whatever the Unicode table says. *)
Theorem sanitize_filename_no_separator unicode_alnum (name : str) (c : N) :
  c ∈ sanitize_filename unicode_alnum name →
  c ≠ 0%N ∧ c ≠ 32%N ∧ c ≠ 46%N ∧ c ≠ 47%N ∧ c ≠ 92%N.
Proof.
  intros Hc.
  pose proof (sanitize_filename_chars unicode_alnum name) as Hall.
  rewrite Forall_forall in Hall. destruct (Hall c Hc) as [Hk Hsp].
  repeat split; try done; intros ->; vm_compute in Hk; discriminate Hk.
Qed.

Lemma sanitize_filename_no_separator_witness :
  95%N ≠ 0%N ∧ 95%N ≠ 32%N ∧ 95%N ≠ 46%N ∧ 95%N ≠ 47%N ∧ 95%N ≠ 92%N.
Proof.
  apply (sanitize_filename_no_separator ascii_table (lit "a/b c") 95%N).
  compute_done.
Defined.

(** X3.  The length of a sanitized name: the number of characters that the
    class keeps, capped at 50; 6, the length of [plugin], when none is
    kept. *)
Theorem sanitize_filename_length_exact unicode_alnum (name : str) :
  length (sanitize_filename unicode_alnum name) =
    match length (List.filter (kept unicode_alnum) name) with
    | 0 => 6
    | S k => 50 `min` S k
    end.
Proof.
  rewrite sanitize_filename_unfold. cbn zeta.
  destruct (List.filter (kept unicode_alnum) name) as [|c l]; [done|].
  rewrite decide_False by done.
  by rewrite length_take, length_fmap.
Qed.

(** X4.  A name of 1 to 50 word characters is its own file name. *)
Theorem sanitize_filename_word_name unicode_alnum (name : str) :
  Forall (λ c, Py.isword unicode_alnum c = true) name →
  name ≠ [] → length name ≤ 50 →
  sanitize_filename unicode_alnum name = name.
Proof.
  intros Hw Hne Hlen. apply sanitize_filename_clean; [|done|done].
  eapply Forall_impl; [exact Hw|]. intros c Hc. split.
  - unfold kept. by rewrite Hc.
  - intros ->. vm_compute in Hc. discriminate Hc.
Qed.

Lemma sanitize_filename_word_name_witness :
  sanitize_filename ascii_table (lit "My_Plugin2") = lit "My_Plugin2".
Proof.
  apply (sanitize_filename_word_name ascii_table (lit "My_Plugin2")).
  - repeat constructor.
  - discriminate.
  - vm_compute. lia.
Defined.

(** ** [str.replace] and the display name *)

Lemma startswith_prefix (old s : str) :
  Py.startswith old s = true ↔ old `prefix_of` s.
Proof.
  revert s. induction old as [|a old IH]; intros s; cbn.
  - split; [|done]. intros _. by exists s.
  - destruct s as [|b s].
    + split; [done|]. by intros [k ?].
    + rewrite andb_true_iff, N.eqb_eq, IH. split.
      * intros [-> [k ->]]. by exists k.
      * intros [k Hk]. injection Hk as -> ->. split; [done|]. by exists k.
Qed.

(** A prefix of the output made of characters that [new] does not have is
    a prefix of the input. *)
Lemma replace_from_prefix (old new w s : str) :
  new ≠ [] → (∀ c, c ∈ w → c ∉ new) →
  w `prefix_of` Py.replace_from old new 0 s → w `prefix_of` s.
Proof.
  intros Hnew. revert w. induction s as [|c r IH]; intros w Hw; [done|].
  cbn [Py.replace_from]. destruct (Py.startswith old (c :: r)).
  - intros [k Hk]. destruct w as [|a w]; [by exists (c :: r)|].
    destruct new as [|n0 new]; [done|]. injection Hk as Ha _.
    exfalso. apply (Hw a); [by left|]. rewrite Ha. by left.
  - intros [k Hk]. destruct w as [|a w]; [by exists (c :: r)|].
    injection Hk as -> Hk.
    destruct (IH w) as [k' ->].
    + intros x Hx. apply Hw. by right.
    + by exists k.
    + by exists k'.
Qed.

Lemma occurs_cons (sub s : str) (c : N) : occurs sub s → occurs sub (c :: s).
Proof. intros (pre & post & ->). by exists (c :: pre), post. Qed.

Lemma occurs_app_disjoint_l (sub l1 l2 : str) :
  sub ≠ [] → (∀ c, c ∈ sub → c ∉ l1) →
  occurs sub (l1 ++ l2) → occurs sub l2.
Proof.
  intros Hne Hdis. induction l1 as [|a l1 IH]; [done|].
  intros (pre & post & Heq). destruct pre as [|b pre].
  - destruct sub as [|x sub]; [done|]. injection Heq as Ha _.
    exfalso. apply (Hdis x); [by left|]. rewrite <- Ha. by left.
  - injection Heq as -> Heq. apply IH.
    + intros c Hc Hin. apply (Hdis c Hc). by right.
    + by exists pre, post.
Qed.

Lemma prefix_app_disjoint (w post l l2 : str) :
  (∀ c, c ∈ w → c ∉ l2) → w ++ post = l ++ l2 → w `prefix_of` l.
Proof.
  revert l. induction w as [|a w IH]; intros l Hdis Heq; [by exists l|].
  destruct l as [|b l].
  - cbn in Heq. destruct (Hdis a); [by left|]. rewrite <- Heq. by left.
  - injection Heq as -> Heq. destruct (IH l) as [k ->]; [|done|by exists k].
    intros c Hc. apply Hdis. by right.
Qed.

Lemma occurs_app_disjoint_r (sub l1 l2 : str) :
  sub ≠ [] → (∀ c, c ∈ sub → c ∉ l2) →
  occurs sub (l1 ++ l2) → occurs sub l1.
Proof.
  intros Hne Hdis. induction l1 as [|a l1 IH].
  - intros (pre & post & Heq). destruct sub as [|x sub]; [done|].
    destruct (Hdis x); [by left|]. cbn in Heq. rewrite Heq.
    rewrite elem_of_app. right. by left.
  - intros (pre & post & Heq). destruct pre as [|b pre].
    + cbn in Heq. symmetry in Heq.
      destruct (prefix_app_disjoint sub post (a :: l1) l2 Hdis Heq) as [k ->].
      by exists [], k.
    + injection Heq as -> Heq. apply occurs_cons, IH. by exists pre, post.
Qed.

(** A term that shares no character with [new] is in the output only when
    it is in the input. *)
Lemma replace_from_occurs (old new sub : str) :
  new ≠ [] → sub ≠ [] → (∀ c, c ∈ sub → c ∉ new) →
  ∀ s k, occurs sub (Py.replace_from old new k s) → occurs sub s.
Proof.
  intros Hnew Hsub Hdis. induction s as [|c r IH]; intros k; [by destruct k|].
  destruct k as [|k]; cbn [Py.replace_from].
  - destruct (Py.startswith old (c :: r)).
    + intros H%occurs_app_disjoint_l; [|done|done].
      by apply occurs_cons, (IH (length old - 1)).
    + intros (pre & post & Heq). destruct pre as [|b pre].
      * destruct sub as [|x w]; [done|]. injection Heq as -> Heq.
        destruct (replace_from_prefix old new w r Hnew) as [k' ->].
        -- intros y Hy. apply Hdis. by right.
        -- by exists post.
        -- by exists [], k'.
      * injection Heq as -> Heq. apply occurs_cons, (IH 0).
        by exists pre, post.
  - intros H. by apply occurs_cons, (IH k).
Qed.

(** The term that is replaced is not in the output, when the replacement
    shares no character with it. *)
Lemma replace_from_gone (old new : str) :
  old ≠ [] → new ≠ [] → (∀ c, c ∈ old → c ∉ new) →
  ∀ s k, ¬ occurs old (Py.replace_from old new k s).
Proof.
  intros Hold Hnew Hdis. induction s as [|c r IH]; intros k.
  - intros (pre & post & Heq). destruct k, pre, old; done.
  - destruct k as [|k]; cbn [Py.replace_from]; [|apply IH].
    destruct (Py.startswith old (c :: r)) eqn:Hstart.
    + intros H%occurs_app_disjoint_l; [|done|done]. by apply IH in H.
    + intros (pre & post & Heq). destruct pre as [|b pre].
      * destruct old as [|x w]; [done|]. injection Heq as -> Heq.
        destruct (replace_from_prefix (x :: w) new w r Hnew) as [k' ->].
        -- intros y Hy. apply Hdis. by right.
        -- by exists post.
        -- assert (Py.startswith (x :: w) (x :: w ++ k') = true) as Hs.
           { apply startswith_prefix. by exists k'. }
           congruence.
      * injection Heq as -> Heq. apply (IH 0). by exists pre, post.
Qed.

Lemma no_common_char (l1 l2 : str) :
  forallb (λ c, negb (existsb (N.eqb c) l2)) l1 = true →
  ∀ c, c ∈ l1 → c ∉ l2.
Proof.
  rewrite forallb_forall. intros H c Hc%list_elem_of_In Hin%list_elem_of_In.
  specialize (H c Hc). apply negb_true_iff in H.
  assert (existsb (N.eqb c) l2 = true) as He; [|congruence].
  apply existsb_exists. exists c. split; [done|]. apply N.eqb_refl.
Qed.

Lemma display_name_clean (p : plugin) :
  ¬ occurs QQ (display_name p) ∧ ¬ occurs WANGYIYUN (display_name p).
Proof.
  unfold display_name, Py.replace. fold WANGYIYUN. fold QQ. split.
  - apply (replace_from_gone QQ (lit "T")); try done.
    by apply no_common_char.
  - intros H.
    apply (replace_from_occurs QQ (lit "T") WANGYIYUN) in H; try done.
    + revert H. apply (replace_from_gone WANGYIYUN (lit "W")); try done.
      by apply no_common_char.
    + by apply no_common_char.
Qed.

(** X5.  Whatever the name or URL of a descriptor, its display name contains
    neither [QQ] nor 网易云. *)
Theorem display_name_without_terms (p : plugin) :
  ¬ occurs QQ (display_name p) ∧ ¬ occurs WANGYIYUN (display_name p).
Proof.
  unfold display_name, Py.replace.
  set (renamed :=
         Py.replace_from [32593%N; 26131%N; 20113%N] (lit "W") 0
           (default (url p) (name p))).
  assert (∀ s k, ¬ occurs QQ (Py.replace_from (lit "QQ") (lit "T") k s))
    as HQ.
  { apply (replace_from_gone QQ (lit "T")); try done.
    by apply no_common_char. }
  split; [apply HQ|]. intros H.
  apply (replace_from_occurs QQ (lit "T") WANGYIYUN) in H; try done.
  - revert H. subst renamed.
    apply (replace_from_gone WANGYIYUN (lit "W")); try done.
    by apply no_common_char.
  - by apply no_common_char.
Qed.

Lemma replace_from_absent (old new s : str) (a : N) :
  head old = Some a → a ∉ s → Py.replace_from old new 0 s = s.
Proof.
  intros Hold. induction s as [|c r IH]; intros Hs; [done|].
  apply not_elem_of_cons in Hs as [Hne Hr]. cbn [Py.replace_from].
  destruct old as [|x old]; [done|]. injection Hold as ->.
  cbn [Py.startswith]. destruct (N.eqb_spec a c) as [->|_]; [done|].
  cbn. by rewrite IH.
Qed.

(** X6.  A name without the letter Q and without the character 网 is its own
    display name. *)
Theorem display_name_unchanged (p : plugin) :
  81%N ∉ default (url p) (name p) →
  32593%N ∉ default (url p) (name p) →
  display_name p = default (url p) (name p).
Proof.
  intros HQ HW. unfold display_name, Py.replace.
  rewrite (replace_from_absent [32593%N; 26131%N; 20113%N] (lit "W") _
             32593%N eq_refl HW).
  by rewrite (replace_from_absent (lit "QQ") (lit "T") _ 81%N eq_refl HQ).
Qed.

Lemma display_name_unchanged_witness :
  display_name (named "Foo" "1.js") = lit "Foo".
Proof.
  apply (display_name_unchanged (named "Foo" "1.js")); compute_done.
Defined.

(** ** [fetch_sub_plugins] and [collect_plugins] *)

(** X7.  A source that answers at attempt [k], after [k] failed attempts, gives
    the list under [plugins] (the empty list without that key), and one
    warning per failed attempt. *)
Theorem fetch_sub_plugins_retry sub_net (s : str) (k : nat) data :
  k < MAX_RETRIES →
  (∀ j, j < k → sub_net s j = SubRaises) →
  sub_net s k = SubJson data →
  fetch_sub_plugins sub_net s =
    (default [] data,
     (λ j, Log Warning (SubscriptionFailed s (j + 1))) <$> seq 0 k).
Proof.
  unfold fetch_sub_plugins, MAX_RETRIES. intros Hk Hbefore Hat.
  destruct k as [|[|[|k]]]; [| | |lia]; cbn.
  - by rewrite Hat.
  - by rewrite (Hbefore 0), Hat by lia.
  - by rewrite (Hbefore 0), (Hbefore 1), Hat by lia.
Qed.

Lemma fetch_sub_plugins_retry_witness :
  fetch_sub_plugins
    (λ _ retry, if retry =? 1 then SubJson (Some [nameless]) else SubRaises)
    (http "sub.json")
  = ([nameless], [Log Warning (SubscriptionFailed (http "sub.json") 1)]).
Proof.
  apply (fetch_sub_plugins_retry
           (λ _ retry,
              if retry =? 1 then SubJson (Some [nameless]) else SubRaises)
           (http "sub.json") 1 (Some [nameless])).
  - unfold MAX_RETRIES. lia.
  - intros j Hj. by replace j with 0 by lia.
  - reflexivity.
Defined.

(** X8.  A source that raises at every attempt gives the empty list after
    [MAX_RETRIES] requests: two warnings, then one error. *)
Theorem fetch_sub_plugins_exhausted sub_net (s : str) :
  (∀ retry, retry < MAX_RETRIES → sub_net s retry = SubRaises) →
  fetch_sub_plugins sub_net s =
    ([], [Log Warning (SubscriptionFailed s 1);
          Log Warning (SubscriptionFailed s 2);
          Log Error (SubscriptionFailed s 3)]).
Proof.
  unfold fetch_sub_plugins, MAX_RETRIES. intros Hall. cbn.
  by rewrite (Hall 0), (Hall 1), (Hall 2) by lia.
Qed.

Lemma fetch_sub_plugins_exhausted_witness :
  fetch_sub_plugins (λ _ _, SubRaises) (http "sub.json") =
    ([], [Log Warning (SubscriptionFailed (http "sub.json") 1);
          Log Warning (SubscriptionFailed (http "sub.json") 2);
          Log Error (SubscriptionFailed (http "sub.json") 3)]).
Proof.
  apply (fetch_sub_plugins_exhausted (λ _ _, SubRaises) (http "sub.json")).
  reflexivity.
Defined.

(** X9.  [collect_plugins] returns the lists of the sources, in the order of
    the sources, followed by the singles; a missing key counts as an
    empty list. *)
Theorem collect_plugins_flattens sub_net (o : origins) :
  (collect_plugins sub_net o).1 =
    concat ((λ s, (fetch_sub_plugins sub_net s).1) <$> default [] (sources o))
    ++ default [] (singles o).
Proof. by rewrite collect_plugins_fst, collect_sources_concat. Qed.

(** ** [fetch_plugins]: what every run keeps *)

(** X10.  Every result carries the other fields of its descriptor, and the
    OriginalPlugin its URL; both records have the same name; a descriptor
    that is not processed comes back as it was given, in both positions. *)
Theorem fetch_results_keep_fields unicode_alnum CDN_URL net disk finish
    (plugins : list plugin) i success new_plugin original_plugin :
  fetch_results unicode_alnum CDN_URL net disk
    (completion_order finish (length plugins)) plugins !! i
  = Some (success, new_plugin, original_plugin) →
  ∃ p, plugins !! i = Some p
       ∧ extra new_plugin = extra p
       ∧ extra original_plugin = extra p
       ∧ url original_plugin = url p
       ∧ name new_plugin = name original_plugin
       ∧ (success = false → new_plugin = p ∧ original_plugin = p).
Proof.
  intros Hr.
  destruct (fetch_results_inv unicode_alnum CDN_URL net disk _ plugins i _
              (completion_order_complete finish (length plugins)) Hr)
    as (p & Hp & Hok).
  exists p. split; [done|]. destruct success; cbn in Hok.
  - destruct Hok as (_ & retry & text & n & c & _ & _ & _ & _ & _ & -> & ->
                     & _).
    by repeat split.
  - destruct Hok as (-> & -> & _). by repeat split.
Qed.

Lemma fetch_results_keep_fields_witness :
  ∃ p, same_url_twice !! 1 = Some p
       ∧ extra (named "B" "1.js") = extra p
       ∧ extra (named "B" "1.js") = extra p
       ∧ url (named "B" "1.js") = url p
       ∧ name (named "B" "1.js") = name (named "B" "1.js")
       ∧ (false = false → named "B" "1.js" = p ∧ named "B" "1.js" = p).
Proof.
  apply (fetch_results_keep_fields ascii_table [] net_ok disk_ok in_order
           same_url_twice 1 false (named "B" "1.js") (named "B" "1.js")).
  reflexivity.
Defined.

Lemma fmap_filter_sublist {A B} (f : A → bool) (g h : A → B) (l : list A) :
  (∀ x, x ∈ l → f x = true → g x = h x) →
  (g <$> List.filter f l) `sublist_of` (h <$> l).
Proof.
  induction l as [|a l IH]; intros Hgh; [constructor|].
  assert ((g <$> List.filter f l) `sublist_of` (h <$> l)) as Hl.
  { apply IH. intros x Hx. apply Hgh. by right. }
  cbn. destruct (f a) eqn:Ha; cbn.
  - rewrite (Hgh a) by (done || by left). by constructor.
  - by constructor.
Qed.

(** X11.  The ProcessedPlugins are, in the order of the output, among the
    OriginalPlugins: same name, same other fields. *)
Theorem valid_plugins_among_original unicode_alnum CDN_URL net disk finish
    (plugins : list plugin) :
  ((λ v, (name v, extra v))
     <$> (fetch_plugins unicode_alnum CDN_URL net disk finish plugins).1)
  `sublist_of`
  ((λ v, (name v, extra v))
     <$> (fetch_plugins unicode_alnum CDN_URL net disk finish plugins).2).
Proof.
  unfold fetch_plugins, fetch_plugins_in. rewrite split_results_eq.
  cbn [fst snd app]. rewrite <- !list_fmap_compose.
  apply fmap_filter_sublist.
  intros [[success new_plugin] original_plugin] (i & Hi)%list_elem_of_lookup _.
  apply fetch_results_inv in Hi as (p & _ & Hok);
    [|apply completion_order_complete].
  apply slot_ok_fields in Hok as (H1 & H2 & _ & H3 & _).
  cbn. congruence.
Qed.

(** ** [fetch_plugins]: the payloads written *)

(** X12.  [fetch_plugins] makes one payload write per ProcessedPlugin that
    it returns: the writes that return are as many as the successes.  Two
    of them may go to the same file, so that the files can be fewer. *)
Theorem one_write_per_valid_plugin unicode_alnum CDN_URL net disk finish
    (plugins : list plugin) :
  length (fetch_writes unicode_alnum CDN_URL net disk finish plugins)
  = length (fetch_plugins unicode_alnum CDN_URL net disk finish plugins).1.
Proof.
  unfold fetch_writes, fetch_plugins, fetch_plugins_in.
  rewrite split_results_eq, fetch_run_files_count. cbn [fst app].
  rewrite length_fmap, <- filter_succeeded_finished.
  do 2 f_equal. symmetry.
  apply fetch_results_tasks, completion_order_complete.
Qed.

Lemma split_results_failures (plugins valid original : list plugin) :
  split_results ((λ p, (false, p, p)) <$> plugins) valid original
  = (valid, original ++ plugins).
Proof.
  revert original. induction plugins as [|p ps IH]; intros original; cbn.
  - by rewrite app_nil_r.
  - by rewrite IH, <- app_assoc.
Qed.

(** X13.  When no request for any of the URLs gets a response, [fetch_plugins]
    returns no ProcessedPlugin, returns the descriptors themselves as
    OriginalPlugins, and writes no file. *)
Theorem nothing_downloaded unicode_alnum CDN_URL net disk finish
    (plugins : list plugin) :
  (∀ p retry, p ∈ plugins → retry < MAX_RETRIES →
     net (url p) retry = None) →
  fetch_plugins unicode_alnum CDN_URL net disk finish plugins = ([], plugins)
  ∧ fetch_writes unicode_alnum CDN_URL net disk finish plugins = [].
Proof.
  intros Hdown.
  pose proof (completion_order_complete finish (length plugins)) as Hc.
  assert (fetch_plugins unicode_alnum CDN_URL net disk finish plugins
          = ([], plugins)) as Heq.
  { unfold fetch_plugins, fetch_plugins_in.
    trans (split_results ((λ p, (false, p, p)) <$> plugins) [] []);
      [|apply split_results_failures].
    f_equal.
    apply list_eq. intros i. rewrite list_lookup_fmap.
    destruct (plugins !! i) as [p|] eqn:Hp; cbn.
    - destruct (fetch_results_slot unicode_alnum CDN_URL net disk _ plugins
                  i p Hc Hp) as ([[[] new] orig] & -> & Hok).
      + destruct Hok as (_ & retry & text & n & c & Hlt & Hnet & _).
        rewrite Hdown in Hnet; [done| |done].
        by eapply list_elem_of_lookup_2.
      + by destruct Hok as (-> & -> & _).
    - apply lookup_ge_None_2. rewrite fetch_results_length by done.
      by apply lookup_ge_None_1. }
  split; [done|]. apply nil_length_inv.
  by rewrite fetch_writes_count, Heq.
Qed.

Lemma nothing_downloaded_witness :
  fetch_plugins ascii_table [] net_down disk_ok in_order foo_thrice
  = ([], foo_thrice)
  ∧ fetch_writes ascii_table [] net_down disk_ok in_order foo_thrice = [].
Proof.
  apply (nothing_downloaded ascii_table [] net_down disk_ok in_order
           foo_thrice).
  reflexivity.
Defined.

(** X14.  Every file that [fetch_plugins] writes has a name of 4 to 53
    characters that ends in [.js] and contains no path separator, no space
    and no NUL: it is a file directly under [JS_DIR]. *)
Theorem payload_files_under_js_dir unicode_alnum CDN_URL net disk finish
    (plugins : list plugin) (e : event) :
  e ∈ fetch_writes unicode_alnum CDN_URL net disk finish plugins →
  ∃ stem text,
    e = WriteJs (stem ++ lit ".js") text
    ∧ 1 ≤ length stem ≤ 50
    ∧ ∀ c, c ∈ stem ++ lit ".js" →
           c ≠ 0%N ∧ c ≠ 32%N ∧ c ≠ 47%N ∧ c ≠ 92%N.
Proof.
  intros He.
  pose proof (fetch_writes_named unicode_alnum CDN_URL net disk finish plugins)
    as Hall.
  rewrite Forall_forall in Hall.
  destruct (Hall e He) as (plugin_name & text & ->).
  exists (sanitize_filename unicode_alnum plugin_name), text.
  split; [done|]. split.
  - pose proof (sanitize_filename_length unicode_alnum plugin_name).
    pose proof (sanitize_filename_nonempty unicode_alnum plugin_name).
    destruct (sanitize_filename unicode_alnum plugin_name); [done|].
    cbn in *. lia.
  - intros c [Hc|Hc]%elem_of_app.
    + pose proof (sanitize_filename_chars unicode_alnum plugin_name) as Hch.
      rewrite Forall_forall in Hch. destruct (Hch c Hc) as [Hk Hsp].
      repeat split; try done; intros ->; vm_compute in Hk; discriminate Hk.
    + revert Hc. cbn. rewrite !elem_of_cons, elem_of_nil.
      intros [->|[->|[->|[]]]]; by repeat split.
Qed.

Lemma payload_files_under_js_dir_witness :
  ∃ stem text,
    WriteJs (lit "Foo.js") (http "1.js") = WriteJs (stem ++ lit ".js") text
    ∧ 1 ≤ length stem ≤ 50
    ∧ ∀ c, c ∈ stem ++ lit ".js" →
           c ≠ 0%N ∧ c ≠ 32%N ∧ c ≠ 47%N ∧ c ≠ 92%N.
Proof.
  apply (payload_files_under_js_dir ascii_table [] net_ok disk_ok in_order
           [named "Foo" "1.js"]).
  vm_compute. by left.
Defined.

(** ** [fetch_plugins]: the resolved names *)

(** X15.  When no two descriptors that reach the update of [name_count]
    (they are not duplicates, and one of their requests gets a response)
    have the same display name, the output of [fetch_plugins] does not
    depend on the order in which the requests complete. *)
Theorem no_collision_no_race unicode_alnum CDN_URL net disk finish1 finish2
    (plugins : list plugin) :
  (∀ i j b, processed net plugins i = Some b →
            processed net plugins j = Some b → i = j) →
  fetch_plugins unicode_alnum CDN_URL net disk finish1 plugins
  = fetch_plugins unicode_alnum CDN_URL net disk finish2 plugins.
Proof.
  intros Hinj. unfold fetch_plugins, fetch_plugins_in. f_equal.
  pose proof (completion_order_complete finish1 (length plugins)) as Hc1.
  pose proof (completion_order_complete finish2 (length plugins)) as Hc2.
  apply list_eq. intros i.
  destruct (plugins !! i) as [p|] eqn:Hp.
  - rewrite (fetch_results_settled unicode_alnum CDN_URL net disk _ plugins
               i p Hinj Hc1 Hp).
    by rewrite (fetch_results_settled unicode_alnum CDN_URL net disk _
                  plugins i p Hinj Hc2 Hp).
  - apply lookup_ge_None_1 in Hp.
    rewrite !lookup_ge_None_2; [done| |];
      by rewrite fetch_results_length.
Qed.

Lemma no_collision_no_race_witness :
  fetch_plugins ascii_table [] net_ok disk_ok in_order space_and_underscore
  = fetch_plugins ascii_table [] net_ok disk_ok in_reverse space_and_underscore.
Proof.
  apply (no_collision_no_race ascii_table [] net_ok disk_ok in_order
           in_reverse space_and_underscore).
  intros [|[|i]] [|[|j]] b Hi Hj; try done; vm_compute in Hi, Hj; congruence.
Defined.

(** X16.  Two descriptors that are both processed under the same display name
    get different resolved names. *)
Theorem same_display_name_distinct_names unicode_alnum CDN_URL net disk finish
    (plugins : list plugin) i j p q new_i original_i new_j original_j :
  i ≠ j →
  plugins !! i = Some p → plugins !! j = Some q →
  display_name p = display_name q →
  fetch_results unicode_alnum CDN_URL net disk
    (completion_order finish (length plugins)) plugins !! i
  = Some (true, new_i, original_i) →
  fetch_results unicode_alnum CDN_URL net disk
    (completion_order finish (length plugins)) plugins !! j
  = Some (true, new_j, original_j) →
  name new_i ≠ name new_j.
Proof.
  intros Hne Hp Hq Hb Hi Hj.
  pose proof (fetch_results_tasks unicode_alnum CDN_URL net disk _ plugins
                (completion_order_complete finish (length plugins))) as Ht.
  apply (fetch_run_names_apart unicode_alnum CDN_URL net disk
           (completion_order finish (length plugins)) plugins
           i j p q new_i original_i new_j original_j); try done.
  - by rewrite <- Ht, list_lookup_fmap, Hi.
  - by rewrite <- Ht, list_lookup_fmap, Hj.
Qed.

Lemma same_display_name_distinct_names_witness :
  name {| url := lit "js/Foo.js"; name := Some (lit "Foo"); extra := [] |}
  ≠ name {| url := lit "js/Foo_1.js"; name := Some (lit "Foo_1");
            extra := [] |}.
Proof.
  refine (same_display_name_distinct_names ascii_table [] net_ok disk_ok
            in_order foo_thrice 0 1 (named "Foo" "1.js") (named "Foo" "2.js")
            _ (set_name (lit "Foo") (named "Foo" "1.js"))
            _ (set_name (lit "Foo_1") (named "Foo" "2.js"))
            _ eq_refl eq_refl eq_refl eq_refl eq_refl).
  lia.
Defined.

Lemma str_of_uint_digits (d : Decimal.uint) :
  Forall (λ c, (48 ≤ c ≤ 57)%N) (lit (NilEmpty.string_of_uint d)).
Proof.
  induction d; cbn; [constructor|..]; (constructor; [cbn; lia|done]).
Qed.

Lemma suffixed_occurs (sub b : str) (k : nat) :
  sub ≠ [] →
  (∀ c, c ∈ sub → c ≠ 95%N ∧ ¬ (48 ≤ c ≤ 57)%N) →
  occurs sub (suffixed b k) → occurs sub b.
Proof.
  intros Hne Hch. unfold suffixed. destruct k as [|k]; [done|].
  apply occurs_app_disjoint_r; [done|].
  intros c Hc. destruct (Hch c Hc) as [H95 Hdig].
  change (lit "_" ++ Py.str_of_nat (S k)) with (95%N :: Py.str_of_nat (S k)).
  apply not_elem_of_cons. split; [done|]. intros Hin.
  pose proof (str_of_uint_digits (Nat.to_uint (S k))) as Hall.
  rewrite Forall_forall in Hall. by apply Hdig, Hall.
Qed.

(** X17.  No ProcessedPlugin has a name that contains [QQ] or 网易云. *)
Theorem valid_names_without_terms unicode_alnum CDN_URL net disk finish
    (plugins : list plugin) (v : plugin) :
  v ∈ (fetch_plugins unicode_alnum CDN_URL net disk finish plugins).1 →
  ∃ plugin_name,
    name v = Some plugin_name
    ∧ ¬ occurs QQ plugin_name ∧ ¬ occurs WANGYIYUN plugin_name.
Proof.
  unfold fetch_plugins, fetch_plugins_in. rewrite split_results_eq.
  cbn [fst app].
  intros ([[success new_plugin] original_plugin] & -> & Hin)%list_elem_of_fmap.
  apply list_elem_of_In, filter_In in Hin as [Hin Hs]. cbn in Hs. subst.
  apply list_elem_of_In, list_elem_of_lookup in Hin as [i Hi].
  apply fetch_results_inv in Hi as (p & Hp & Hok);
    [|apply completion_order_complete].
  apply slot_ok_success in Hok as (retry & text & n & _ & _ & _ & Hname & _).
  eexists. split; [exact Hname|].
  destruct (display_name_clean p) as [HQ HW]. split.
  - intros H%suffixed_occurs; [done|done|].
    intros c Hc%list_elem_of_In. cbn in Hc.
    destruct Hc as [<-|[<-|[]]]; split; (done || lia).
  - intros H%suffixed_occurs; [done|done|].
    intros c Hc%list_elem_of_In. cbn in Hc.
    destruct Hc as [<-|[<-|[<-|[]]]]; split; (done || lia).
Qed.

Lemma valid_names_without_terms_witness :
  ∃ plugin_name,
    name {| url := lit "js/T_music.js"; name := Some (lit "T_music");
            extra := [] |} = Some plugin_name
    ∧ ¬ occurs QQ plugin_name ∧ ¬ occurs WANGYIYUN plugin_name.
Proof.
  apply (valid_names_without_terms ascii_table [] net_ok disk_ok in_order
           [named "QQ_music" "1.js"]).
  vm_compute. by left.
Defined.

(** X24.  When no write raises, the suffixes given under a display name have
    no gap: for some [m], the names [b], [b_1], ..., up to the suffix
    [m - 1], are each the name of a ProcessedPlugin whose descriptor has
    the display name [b], and every such ProcessedPlugin has one of these
    names. *)
Theorem names_numbered_when_writes_return unicode_alnum CDN_URL net disk
    finish (plugins : list plugin) (b : str) :
  (∀ p retry, p ∈ plugins → retry < MAX_RETRIES →
     is_Some (net (url p) retry) → disk (url p) retry = true) →
  let results :=
    fetch_results unicode_alnum CDN_URL net disk
      (completion_order finish (length plugins)) plugins in
  ∃ m,
    (∀ n, n < m →
       ∃ i p new_plugin original_plugin,
         plugins !! i = Some p ∧ display_name p = b
         ∧ results !! i = Some (true, new_plugin, original_plugin)
         ∧ name new_plugin = Some (suffixed b n))
    ∧ (∀ i p new_plugin original_plugin,
         plugins !! i = Some p → display_name p = b →
         results !! i = Some (true, new_plugin, original_plugin) →
         ∃ n, n < m ∧ name new_plugin = Some (suffixed b n)).
Proof.
  intros Hw results.
  pose proof (completion_order_complete finish (length plugins)) as Hc.
  set (order := completion_order finish (length plugins)) in *.
  set (st := fetch_run unicode_alnum CDN_URL net disk order plugins).
  exists (next_count (name_count st) b). split.
  - intros n Hn.
    destruct (fetch_run_suffixes_used unicode_alnum CDN_URL net disk order
                plugins Hw b n Hn)
      as (i & p & new & orig & Hp & Hb & Hi & Hname).
    exists i, p, new, orig. split; [done|]. split; [done|]. split; [|done].
    by apply fetch_results_lookup.
  - intros i p new orig Hp Hb Hr.
    destruct (fetch_results_slot unicode_alnum CDN_URL net disk order plugins
                i p Hc Hp) as (r & Hr' & Hok).
    fold results in Hr'. rewrite Hr in Hr'. injection Hr' as <-.
    destruct Hok as (_ & retry & text & n & c & _ & _ & _ & Hcount & Hle
                     & -> & _).
    exists n. rewrite <- Hb. split; [|done].
    fold st in Hcount. unfold next_count. rewrite Hcount. lia.
Qed.

Lemma names_numbered_when_writes_return_witness :
  ∃ m,
    (∀ n, n < m →
       ∃ i p new_plugin original_plugin,
         foo_thrice !! i = Some p ∧ display_name p = lit "Foo"
         ∧ fetch_results ascii_table [] net_ok disk_ok
             (completion_order in_order (length foo_thrice)) foo_thrice !! i
           = Some (true, new_plugin, original_plugin)
         ∧ name new_plugin = Some (suffixed (lit "Foo") n))
    ∧ (∀ i p new_plugin original_plugin,
         foo_thrice !! i = Some p → display_name p = lit "Foo" →
         fetch_results ascii_table [] net_ok disk_ok
           (completion_order in_order (length foo_thrice)) foo_thrice !! i
         = Some (true, new_plugin, original_plugin) →
         ∃ n, n < m ∧ name new_plugin = Some (suffixed (lit "Foo") n)).
Proof.
  apply (names_numbered_when_writes_return ascii_table [] net_ok disk_ok
           in_order foo_thrice (lit "Foo")).
  intros p retry _ _ _. reflexivity.
Defined.

(** ** The CDN base *)

Lemma rstrip_snoc (c : N) (s : str) : Py.rstrip c (s ++ [c]) = Py.rstrip c s.
Proof.
  induction s as [|x s IH]; cbn.
  - by rewrite N.eqb_refl.
  - by rewrite IH.
Qed.

Lemma mirror_url_slash (CDN_URL filename : str) :
  CDN_URL ≠ [] →
  mirror_url (CDN_URL ++ lit "/") filename = mirror_url CDN_URL filename.
Proof.
  intros Hne. destruct CDN_URL as [|c cdn]; [done|].
  change (lit "/") with [47%N]. unfold mirror_url.
  rewrite rstrip_snoc. by destruct cdn.
Qed.

Lemma resume_slash unicode_alnum CDN_URL net disk st i :
  CDN_URL ≠ [] →
  resume unicode_alnum (CDN_URL ++ lit "/") net disk st i
  = resume unicode_alnum CDN_URL net disk st i.
Proof.
  intros Hne.
  destruct (tasks st !! i) as [[r|p k]|] eqn:Hi;
    [by rewrite !resume_not_suspended by congruence| |
     by rewrite !resume_not_suspended by congruence].
  rewrite !(resume_suspended _ _ _ _ _ _ _ _ Hi). cbn zeta.
  by rewrite mirror_url_slash.
Qed.

Lemma fetch_run_slash unicode_alnum CDN_URL net disk order plugins :
  CDN_URL ≠ [] →
  fetch_run unicode_alnum (CDN_URL ++ lit "/") net disk order plugins
  = fetch_run unicode_alnum CDN_URL net disk order plugins.
Proof.
  intros Hne. unfold fetch_run, run_tasks.
  induction order as [|i order IH] using rev_ind; [done|].
  rewrite !foldl_app. cbn [foldl]. rewrite IH. by apply resume_slash.
Qed.

(** X18.  A slash at the end of a non-empty [CDN_URL] changes nothing in what
    [fetch_plugins] returns and writes. *)
Theorem cdn_url_trailing_slash_ignored unicode_alnum CDN_URL net disk finish
    (plugins : list plugin) :
  CDN_URL ≠ [] →
  fetch_plugins unicode_alnum (CDN_URL ++ lit "/") net disk finish plugins
  = fetch_plugins unicode_alnum CDN_URL net disk finish plugins
  ∧ fetch_writes unicode_alnum (CDN_URL ++ lit "/") net disk finish plugins
    = fetch_writes unicode_alnum CDN_URL net disk finish plugins.
Proof.
  intros Hne.
  unfold fetch_plugins, fetch_plugins_in, fetch_results, fetch_writes.
  by rewrite fetch_run_slash.
Qed.

Lemma cdn_url_trailing_slash_ignored_witness :
  fetch_plugins ascii_table (lit "https://cdn.x" ++ lit "/") net_ok disk_ok
    in_order foo_thrice
  = fetch_plugins ascii_table (lit "https://cdn.x") net_ok disk_ok in_order
      foo_thrice
  ∧ fetch_writes ascii_table (lit "https://cdn.x" ++ lit "/") net_ok disk_ok
      in_order foo_thrice
    = fetch_writes ascii_table (lit "https://cdn.x") net_ok disk_ok in_order
        foo_thrice.
Proof.
  apply (cdn_url_trailing_slash_ignored ascii_table (lit "https://cdn.x")
           net_ok disk_ok in_order foo_thrice).
  discriminate.
Defined.

(** ** [main]: how a run ends *)

(** X19.  A manifest that [main] writes carries the version, and the list that
    [fetch_plugins] returned for the collected descriptors: the valid
    plugins, of which there is at least one, in [all.json], the original
    ones in [plugins.json]. *)
Theorem manifest_contents unicode_alnum CDN_URL (w : world) path desc l :
  WriteManifest path desc l ∈ main unicode_alnum CDN_URL w →
  let out :=
    fetch_plugins unicode_alnum CDN_URL (net w) (disk w) (finish w)
      (collect_plugins (sub_net w) (load_origins (origins_file w)).1).1 in
  desc = VERSION
  ∧ out.1 ≠ []
  ∧ writable w path = true
  ∧ l = match path with
        | DIST_JSON_PATH => out.1
        | PLUGINS_JSON_PATH => out.2
        end.
Proof.
  intros He out.
  destruct (main_final_events unicode_alnum CDN_URL w _ He eq_refl)
    as (_ & _ & Hne & Hin).
  fold out in Hne, Hin.
  destruct (writable w DIST_JSON_PATH) eqn:Hd,
    (writable w PLUGINS_JSON_PATH) eqn:Hp;
    cbn in Hin; revert Hin; rewrite ?elem_of_cons, ?elem_of_nil;
    intros Hin; repeat destruct Hin as [Hin|Hin]; try done;
    injection Hin as -> -> ->; by repeat split.
Qed.

Lemma manifest_contents_witness :
  VERSION = VERSION
  ∧ (fetch_plugins ascii_table [] net_ok disk_ok in_order [nameless]).1 ≠ []
  ∧ true = true
  ∧ (fetch_plugins ascii_table [] net_ok disk_ok in_order [nameless]).1
    = (fetch_plugins ascii_table [] net_ok disk_ok in_order [nameless]).1.
Proof.
  apply (manifest_contents ascii_table []
           (world_of (Some {| sources := None; singles := Some [nameless] |})
              net_ok)
           DIST_JSON_PATH VERSION
           (fetch_plugins ascii_table [] net_ok disk_ok in_order [nameless]).1).
  vm_compute.
  repeat first [apply list_elem_of_here | apply list_elem_of_further].
Defined.

(** X20.  The final message [Done] is logged exactly when both manifests have
    been written. *)
Theorem done_iff_both_manifests unicode_alnum CDN_URL (w : world) :
  (∃ n, Log Success (Done n) ∈ main unicode_alnum CDN_URL w)
  ↔ (∃ desc l, WriteManifest DIST_JSON_PATH desc l
                 ∈ main unicode_alnum CDN_URL w)
    ∧ (∃ desc l, WriteManifest PLUGINS_JSON_PATH desc l
                   ∈ main unicode_alnum CDN_URL w).
Proof.
  split.
  - intros [n Hn].
    destruct (main_final_events unicode_alnum CDN_URL w _ Hn eq_refl)
      as (_ & _ & _ & Hin).
    assert (writable w DIST_JSON_PATH = true
            ∧ writable w PLUGINS_JSON_PATH = true) as [Hd Hp].
    { destruct (writable w DIST_JSON_PATH), (writable w PLUGINS_JSON_PATH);
        cbn in Hin; revert Hin; rewrite ?elem_of_cons, ?elem_of_nil;
        intros Hin; repeat destruct Hin as [Hin|Hin]; done. }
    destruct (main_final_complete unicode_alnum CDN_URL w _ Hn eq_refl Hd Hp)
      as (valid & original & m & Heq).
    split; exists VERSION; eexists; apply final_in_main; rewrite Heq.
    + by left.
    + right. by left.
  - intros [(d1 & l1 & H1) (d2 & l2 & H2)].
    destruct (main_final_events unicode_alnum CDN_URL w _ H1 eq_refl)
      as (_ & _ & _ & Hin1).
    destruct (main_final_events unicode_alnum CDN_URL w _ H2 eq_refl)
      as (_ & _ & _ & Hin2).
    assert (writable w DIST_JSON_PATH = true
            ∧ writable w PLUGINS_JSON_PATH = true) as [Hd Hp].
    { destruct (writable w DIST_JSON_PATH), (writable w PLUGINS_JSON_PATH);
        cbn in Hin1, Hin2; revert Hin1 Hin2;
        rewrite ?elem_of_cons, ?elem_of_nil;
        intros Hin1 Hin2; repeat destruct Hin1 as [Hin1|Hin1];
        repeat destruct Hin2 as [Hin2|Hin2]; done. }
    destruct (main_final_complete unicode_alnum CDN_URL w _ H1 eq_refl Hd Hp)
      as (valid & original & m & Heq).
    exists m. apply final_in_main. rewrite Heq. right. right. by left.
Qed.



(** X22.  A configuration that is the empty JSON object ends the run after the
    reset of [JS_DIR], without a warning or an error in the log. *)
Theorem empty_origins_silent unicode_alnum CDN_URL (w : world) (o : origins) :
  (reset_js_dir w).1 = true →
  origins_file w = Some o →
  origins_empty o = true →
  main unicode_alnum CDN_URL w =
    [Log Info Starting; Log Info (CdnSetting (USE_CDN CDN_URL))]
    ++ (if USE_CDN CDN_URL then [Log Info (CdnAddress CDN_URL)] else [])
    ++ (reset_js_dir w).2
  ∧ Forall (λ e, is_alert e = false) (main unicode_alnum CDN_URL w).
Proof.
  intros Hok Hfile Hempty. rewrite main_header. cbn zeta.
  rewrite Hok, Hfile. cbn [load_origins fst snd]. rewrite Hempty.
  rewrite ?app_nil_r, <- ?app_assoc. split; [done|].
  revert Hok. unfold reset_js_dir.
  destruct (js_dir_exists w), (reset w), (USE_CDN CDN_URL); cbn;
    intros Hok; try done; by repeat constructor.
Qed.

Lemma empty_origins_silent_witness :
  main ascii_table []
    (world_of (Some {| sources := None; singles := None |}) net_ok) =
    [Log Info Starting; Log Info (CdnSetting (USE_CDN []))]
    ++ (if USE_CDN [] then [Log Info (CdnAddress [])] else [])
    ++ (reset_js_dir
          (world_of (Some {| sources := None; singles := None |}) net_ok)).2
  ∧ Forall (λ e, is_alert e = false)
      (main ascii_table []
         (world_of (Some {| sources := None; singles := None |}) net_ok)).
Proof.
  apply (empty_origins_silent ascii_table []
           (world_of (Some {| sources := None; singles := None |}) net_ok)
           {| sources := None; singles := None |}); reflexivity.
Defined.

(** X23.  When [main] writes [all.json], the number of payload writes that
    the run has made is the number of plugins in that manifest (two writes
    may go to the same file, so that the files can be fewer). *)
Theorem payload_count_matches_manifest unicode_alnum CDN_URL (w : world)
    desc l :
  WriteManifest DIST_JSON_PATH desc l ∈ main unicode_alnum CDN_URL w →
  length (List.filter writes_js (main unicode_alnum CDN_URL w)) = length l.
Proof.
  intros He.
  destruct (main_final_events unicode_alnum CDN_URL w _ He eq_refl)
    as (Hr & Ho & Hne & Hin).
  assert (l = (fetch_plugins unicode_alnum CDN_URL (net w) (disk w) (finish w)
                 (collect_plugins (sub_net w)
                    (load_origins (origins_file w)).1).1).1) as ->.
  { destruct (writable w DIST_JSON_PATH), (writable w PLUGINS_JSON_PATH);
      cbn in Hin; revert Hin; rewrite ?elem_of_cons, ?elem_of_nil;
      intros Hin; repeat destruct Hin as [Hin|Hin]; try done;
      by injection Hin as _ ->. }
  rewrite main_js, Hr, Ho. cbn [andb negb]. apply fetch_writes_count.
Qed.

Lemma payload_count_matches_manifest_witness :
  length
    (List.filter writes_js
       (main ascii_table []
          (world_of (Some {| sources := None; singles := Some foo_thrice |})
             net_ok)))
  = length
      (fetch_plugins ascii_table [] net_ok disk_ok in_order foo_thrice).1.
Proof.
  apply (payload_count_matches_manifest ascii_table []
           (world_of (Some {| sources := None; singles := Some foo_thrice |})
              net_ok) VERSION).
  vm_compute.
  repeat first [apply list_elem_of_here | apply list_elem_of_further].
Defined.
